(** * k8s-probe-monitor: the reconciliation engine of [main.go]

    A shallow embedding of the pod monitor's state reconciliation code
    ([updatePodStatuses], [getPodInfo], [monitorPods]), of the snapshot
    readers ([handleIndex], [handleAPI]) and of the action forwarder
    ([handleProxy]), with the properties the specification states about
    them.

    Conventions.
    - Go strings are byte strings: [string].
    - [map[string]*PodStatusInfo] is a [gmap string PodStatusInfo].  A
      record is never written again once it has been stored in the map, so
      the pointer is modelled by the record it points to.
    - [time.Time] is the reading of the monotonic clock, an integer.
    - What the program asks of the outside world (the cluster API, the pods'
      HTTP endpoints, the clock) is an input of the model; what it does to
      the outside world is returned as a list of [Event]s, oldest first.
    - The library functions [json.Unmarshal], [json.Decoder.Decode] and
      [http.NewRequest] are variables of the sections that use them. *)

From Stdlib Require Import ZArith String Ascii List Lia.
From stdpp Require Import gmap strings list fin_maps pretty.
From Stdlib Require OrderedTypeEx.
From stdpp Require Import sorting.

Open Scope string_scope.

(** ** Data model *)

Definition Time := Z.

Record ProbeStatus := {
  Started : bool;
  Live : bool;
  Ready : bool
}.

Record PodInfo := {
  PodName : string;
  PodIP : string;
  NodeHostname : string;
  ContainerAge : Z;
  StartTime : string;
  PodProbeStatus : ProbeStatus;
  StartupDelay : Z;
  StartupReady : string
}.

Record PodStatusInfo := {
  Name : string;
  IP : string;
  Node : string;
  Status : string;
  Info : option PodInfo;
  Error : string;
  LastCheck : Time;
  ReplicaSetID : string
}.

(** The fields of a [corev1.Pod] that the monitor reads: [pod.Name],
    [pod.Status.PodIP], [pod.Spec.NodeName] and [pod.Status.Phase]. *)
Record Pod := {
  pod_Name : string;
  pod_PodIP : string;
  pod_NodeName : string;
  pod_Phase : string
}.

Record Dashboard := {
  pods : gmap string PodStatusInfo
}.

(** [NewDashboard]: [pods: make(map[string]*PodStatusInfo)]. *)
Definition NewDashboard : Dashboard := {| pods := ∅ |}.

(** ** [strings.Split] with a one-byte separator, and the ReplicaSet tag *)

Module Strings.

(** [strings.Split(s, sep)] for a separator of one byte: the substrings
    between the separators, [[s]] when [s] has no separator. *)
Fixpoint Split (s : string) (sep : ascii) : list string :=
  match s with
  | EmptyString => [EmptyString]
  | String c s' =>
      if Ascii.eqb c sep then EmptyString :: Split s' sep
      else match Split s' sep with
           | [] => [String c EmptyString]
           | p :: ps => String c p :: ps
           end
  end.

(** [s] has no byte [sep]. *)
Fixpoint free_of (sep : ascii) (s : string) : bool :=
  match s with
  | EmptyString => true
  | String c s' => negb (Ascii.eqb c sep) && free_of sep s'
  end.

(** [strings.Join(parts, sep)] with a one-byte separator. *)
Definition Join (parts : list string) (sep : ascii) : string :=
  String.concat (String sep EmptyString) parts.

End Strings.

Definition dash : ascii := "-"%char.

(** Lines 137-143 of [updatePodStatuses]:

      replicaSetID := ""
      parts := strings.Split(pod.Name, "-")
      if len(parts) >= 2 { replicaSetID = parts[len(parts)-2] }  *)
Definition replicaSetID (name : string) : string :=
  let parts := Strings.Split name dash in
  if (2 <=? length parts)%nat
  then default "" (parts !! (length parts - 2)%nat)
  else "".

(** The specification's wording: the second-to-last segment when at least
    two segments exist, the empty tag otherwise. *)
Definition second_to_last (segments : list string) : string :=
  match rev segments with
  | _ :: tag :: _ => tag
  | _ => ""
  end.

(** ** Facts about [Split] *)

Section SplitFacts.
Import Strings.
Variable sep : ascii.

Lemma Split_nonempty s : Split s sep ≠ [].
Proof. destruct s as [|c s]; simpl; [done|]. destruct (Ascii.eqb c sep); [done|]. by destruct (Split s sep). Qed.

Lemma Split_free s : forallb (free_of sep) (Split s sep) = true.
Proof.
  induction s as [|c s IH]; simpl; [done|].
  destruct (Ascii.eqb c sep) eqn:E; simpl; [done|].
  pose proof (Split_nonempty s) as Hne.
  destruct (Split s sep) as [|p ps]; [done|].
  simpl in *. rewrite E. simpl. exact IH.
Qed.

Lemma Join_Split s : Join (Split s sep) sep = s.
Proof.
  unfold Join. induction s as [|c s IH]; simpl; [done|].
  pose proof (Split_nonempty s) as Hne.
  destruct (Ascii.eqb c sep) eqn:E.
  - apply Ascii.eqb_eq in E. subst c.
    destruct (Split s sep) as [|p ps]; [done|].
    rewrite <- IH. reflexivity.
  - destruct (Split s sep) as [|p ps]; [done|].
    rewrite <- IH. by destruct ps.
Qed.

Lemma Split_free_string s : free_of sep s = true → Split s sep = [s].
Proof.
  induction s as [|c s IH]; simpl; [done|].
  intros [Hc Hs]%andb_prop. apply negb_true_iff in Hc. rewrite Hc.
  by rewrite (IH Hs).
Qed.

Lemma Split_app_free p s :
  free_of sep p = true →
  Split (p +:+ String sep s) sep = p :: Split s sep.
Proof.
  induction p as [|c p IH]; simpl.
  - by rewrite Ascii.eqb_refl.
  - intros [Hc Hp]%andb_prop. apply negb_true_iff in Hc. rewrite Hc.
    by rewrite (IH Hp).
Qed.

(** [Split] undoes [Join] on segments that have no separator byte;
    [Join [] = ""] splits into one empty segment. *)
Lemma Split_Join segs :
  forallb (free_of sep) segs = true →
  Split (Join segs sep) sep = match segs with [] => [""] | _ => segs end.
Proof.
  unfold Join. induction segs as [|p segs IH]; [done|].
  intros H. simpl in H. apply andb_prop in H as [Hp Hsegs].
  destruct segs as [|q segs].
  - by apply Split_free_string.
  - change (String.concat (String sep "") (p :: q :: segs))
      with (p +:+ String sep (String.concat (String sep "") (q :: segs))).
    rewrite Split_app_free by done. f_equal. by apply IH.
Qed.
End SplitFacts.

Lemma second_to_last_lookup (l : list string) :
  (if (2 <=? length l)%nat then default "" (l !! (length l - 2)%nat) else "")
  = second_to_last l.
Proof.
  unfold second_to_last.
  destruct (rev l) as [|x [|y r]] eqn:E.
  - apply (f_equal (@rev _)) in E. rewrite rev_involutive in E. by subst.
  - apply (f_equal (@rev _)) in E. rewrite rev_involutive in E. by subst.
  - apply (f_equal (@rev _)) in E. rewrite rev_involutive in E. subst l.
    simpl rev. rewrite !length_app. simpl length.
    destruct (Nat.leb_spec 2 (length (rev r) + 1 + 1)) as [_|?]; [|lia].
    replace (length (rev r) + 1 + 1 - 2)%nat with (length (rev r) + 0)%nat by lia.
    rewrite <- app_assoc, Nat.add_0_r, lookup_app_r by lia.
    by rewrite Nat.sub_diag.
Qed.

(** C3. The group tag of an identity is the second-to-last of its
    "-"-separated segments when there are at least two, and empty
    otherwise: every identity is the "-"-join of its dash-free segments, and
    on any such join [replicaSetID] returns the second-to-last segment;
    "web-7f8c9d-abcde" gives "7f8c9d" and "single" gives the empty tag. *)
Theorem replicaSetID_second_to_last :
  (∀ name, ∃ segs,
      forallb (Strings.free_of dash) segs = true ∧
      name = Strings.Join segs dash ∧
      replicaSetID name = second_to_last segs) ∧
  (∀ segs, forallb (Strings.free_of dash) segs = true →
      replicaSetID (Strings.Join segs dash) = second_to_last segs) ∧
  replicaSetID "web-7f8c9d-abcde" = "7f8c9d" ∧
  replicaSetID "single" = "".
Proof.
  split; [|split; [|split; reflexivity]].
  - intros name. exists (Strings.Split name dash).
    split; [apply Split_free|]. split; [by rewrite Join_Split|].
    apply second_to_last_lookup.
  - intros segs Hfree. unfold replicaSetID.
    rewrite second_to_last_lookup, Split_Join by done.
    by destruct segs.
Qed.

Lemma replicaSetID_second_to_last_witness :
  forallb (Strings.free_of dash) ["probe"; "demo"; "5d4f8"; "x2x9z"] = true ∧
  replicaSetID "probe-demo-5d4f8-x2x9z" = "5d4f8".
Proof.
  split; [reflexivity|].
  exact (proj1 (proj2 replicaSetID_second_to_last)
           ["probe"; "demo"; "5d4f8"; "x2x9z"] eq_refl).
Defined.

(** ** The outside world *)

(** A request handed to the HTTP client. *)
Record HttpRequest := {
  req_Method : string;
  req_URL : string
}.

(** [resp.Body] as a reader: the bytes it delivers, and the error that ends
    the stream when it does not end in EOF. *)
Record Body := {
  data : string;
  read_err : option string
}.

Record HttpResponse := {
  StatusCode : Z;
  RespBody : Body
}.

(** What [client.Get] and [client.Do] return: [(nil, err)] or [(resp, nil)]. *)
Inductive Outcome :=
| Failed (cause : string)
| Responded (resp : HttpResponse).

(** What a JSON decoder returns: the decoded value, or an error. *)
Inductive decoded (A : Type) :=
| Decoded (a : A)
| DecodeError (cause : string).
Arguments Decoded {A} a.
Arguments DecodeError {A} cause.

(** What the program does that others can see. *)
Inductive Event :=
| EvRequest (req : HttpRequest)                (* [client.Get] or [client.Do] was called *)
| EvLog (line : string)                        (* [log.Printf] *)
| EvUnlock (store : gmap string PodStatusInfo). (* [d.mu.Unlock()] after a write:
                                                  the map readers see from now on *)

(** The requests the HTTP client was called with, in order. *)
Definition requests (evs : list Event) : list HttpRequest :=
  omap (λ ev, match ev with EvRequest r => Some r | _ => None end) evs.

(** The maps released to the readers by a list of events, in order. *)
Definition unlocked (evs : list Event) : list (gmap string PodStatusInfo) :=
  omap (λ ev, match ev with EvUnlock s => Some s | _ => None end) evs.

(** ** Remote Probe Client: [getPodInfo] *)

(** The errors [getPodInfo] builds with [fmt.Errorf], in source order. *)
Inductive error :=
| failed_to_connect (cause : string)
| unexpected_status_code (code : Z)
| failed_to_read_response (cause : string)
| failed_to_parse_JSON (cause : string).

(** [err.Error()]. *)
Definition Error_string (e : error) : string :=
  match e with
  | failed_to_connect cause => "failed to connect: " +:+ cause
  | unexpected_status_code code => "unexpected status code: " +:+ pretty code
  | failed_to_read_response cause => "failed to read response: " +:+ cause
  | failed_to_parse_JSON cause => "failed to parse JSON: " +:+ cause
  end.

(** The specification's three kinds of fetch error.  A response whose body
    cannot be read to its end is a request that could not be completed. *)
Inductive ErrorKind := Connectivity | StatusError | StructuralDecode.

Definition kind (e : error) : ErrorKind :=
  match e with
  | failed_to_connect _ | failed_to_read_response _ => Connectivity
  | unexpected_status_code _ => StatusError
  | failed_to_parse_JSON _ => StructuralDecode
  end.

Definition StatusOK : Z := 200.

Section RemoteProbeClient.
(** [json.Unmarshal(body, &info)]. *)
Variable Unmarshal : string → decoded PodInfo.

(** [getPodInfo], lines 179-207.  [client_Get] is the answer of the
    network to this one call; the result is Go's pair of a [PodInfo]
    pointer and an [error], with the events of the call. *)
Definition getPodInfo (client_Get : string → Outcome) (podIP : string)
  : option PodInfo * option error * list Event :=
  let url := "http://" +:+ podIP +:+ ":8080/api/info" in
  let sent := [EvRequest {| req_Method := "GET"; req_URL := url |}] in
  match client_Get url with
  | Failed cause => (None, Some (failed_to_connect cause), sent)
  | Responded resp =>
      if negb (StatusCode resp =? StatusOK)%Z
      then (None, Some (unexpected_status_code (StatusCode resp)), sent)
      else
        match read_err (RespBody resp) with
        | Some cause => (None, Some (failed_to_read_response cause), sent)
        | None =>
            match Unmarshal (data (RespBody resp)) with
            | DecodeError cause => (None, Some (failed_to_parse_JSON cause), sent)
            | Decoded info => (Some info, None, sent)
            end
        end
  end.

(** The request completed: it was answered and the body was read to its
    end. *)
Definition completed (o : Outcome) : option (Z * string) :=
  match o with
  | Responded {| StatusCode := code; RespBody := {| data := b; read_err := None |} |} =>
      Some (code, b)
  | _ => None
  end.

Lemma getPodInfo_one_of client_Get podIP :
  match getPodInfo client_Get podIP with
  | (Some _, None, _) | (None, Some _, _) => True
  | _ => False
  end.
Proof.
  unfold getPodInfo. destruct (client_Get _) as [|[code [b [e|]]]]; simpl; [done|..].
  - by destruct (negb _).
  - destruct (negb _); [done|]. by destruct (Unmarshal b).
Qed.

Lemma getPodInfo_requests client_Get podIP :
  (getPodInfo client_Get podIP).2
  = [EvRequest {| req_Method := "GET";
                  req_URL := "http://" +:+ podIP +:+ ":8080/api/info" |}].
Proof.
  unfold getPodInfo. destruct (client_Get _) as [|[code [b [e|]]]]; simpl; [done|..].
  - by destruct (negb _).
  - destruct (negb _); [done|]. by destruct (Unmarshal b).
Qed.
End RemoteProbeClient.

(** C6. [getPodInfo] returns a decoded [PodInfo] exactly when the request
    completes, the status is 200 and the body decodes.  Otherwise it
    returns one error and no [PodInfo]: a connectivity error when the
    request cannot be sent or completed, a status error when the status is
    not 200, a structural-decode error when the body does not decode.  It
    never returns both or neither. *)
Theorem getPodInfo_result Unmarshal client_Get podIP :
  let url := "http://" +:+ podIP +:+ ":8080/api/info" in
  let '(info, err, _) := getPodInfo Unmarshal client_Get podIP in
  (∀ i, info = Some i ↔
        ∃ b, completed (client_Get url) = Some (StatusOK, b) ∧ Unmarshal b = Decoded i) ∧
  (info = None ↔ ∃ e, err = Some e) ∧
  (info = None ∨ err = None) ∧
  (∀ e, err = Some e →
     match client_Get url with
     | Failed cause => e = failed_to_connect cause ∧ kind e = Connectivity
     | Responded resp =>
         if negb (StatusCode resp =? StatusOK)%Z
         then e = unexpected_status_code (StatusCode resp) ∧ kind e = StatusError
         else match completed (client_Get url) with
              | None => kind e = Connectivity
              | Some (_, b) =>
                  kind e = StructuralDecode ∧
                  ∃ cause, Unmarshal b = DecodeError cause ∧ e = failed_to_parse_JSON cause
              end
     end).
Proof.
  unfold getPodInfo.
  destruct (client_Get _) as [cause|[code [b [e|]]]] eqn:Hget; simpl.
  - split_and!; [intros i; split; [done|by intros (?&?&?)]|split; eauto|by left|].
    by intros ? [= <-].
  - destruct (Z.eqb_spec code StatusOK) as [->|Hne]; simpl.
    + split_and!; [intros i; split; [done|by intros (?&?&?)]|split; eauto|by left|].
      by intros ? [= <-].
    + split_and!; [intros i; split; [done|by intros (?&?&?)]|split; eauto|by left|].
      by intros ? [= <-].
  - destruct (Z.eqb_spec code StatusOK) as [->|Hne]; simpl.
    + destruct (Unmarshal b) as [i|cause] eqn:Hu.
      * split_and!; [|split; [done|by intros (?&?)]|by right|done].
        intros i'; split; [intros [= <-]; eauto|].
        intros (b'&[= <-]&Hb). rewrite Hu in Hb. by injection Hb as ->.
      * split_and!; [|split; eauto|by left|].
        -- intros i'; split; [done|]. intros (b'&[= <-]&Hb). by rewrite Hu in Hb.
        -- intros ? [= <-]. eauto.
    + split_and!; [|split; eauto|by left|by intros ? [= <-]].
      intros i; split; [done|]. by intros (b'&[= ? <-]&Hb).
Qed.

Lemma getPodInfo_result_witness :
  let Unmarshal := λ b : string,
    if String.eqb b "{}"
    then Decoded {| PodName := ""; PodIP := ""; NodeHostname := "";
                    ContainerAge := 0; StartTime := "";
                    PodProbeStatus := {| Started := false; Live := false; Ready := false |};
                    StartupDelay := 0; StartupReady := "" |}
    else DecodeError "unexpected end of JSON input" in
  let client_Get := λ _ : string,
    Responded {| StatusCode := 200; RespBody := {| data := "<"; read_err := None |} |} in
  ∃ e, (getPodInfo Unmarshal client_Get "10.0.0.5").1.2 = Some e ∧
       kind e = StructuralDecode.
Proof.
  intros Unmarshal client_Get.
  pose proof (getPodInfo_result Unmarshal client_Get "10.0.0.5") as H.
  destruct (getPodInfo Unmarshal client_Get "10.0.0.5") as [[info err] evs] eqn:E.
  destruct H as (_ & _ & _ & H).
  exists (failed_to_parse_JSON "unexpected end of JSON input").
  split; [by vm_compute in E; injection E as <- <- <-|].
  exact (proj1 (H _ ltac:(by vm_compute in E; injection E as <- <- <-))).
Defined.

(** ** State Store *)

(** [d.pods[name] = podStatus] between [d.mu.Lock()] and [d.mu.Unlock()]. *)
Definition upsert (r : PodStatusInfo) (store : gmap string PodStatusInfo)
  : gmap string PodStatusInfo :=
  <[Name r := r]> store.

(** [currentPods[name]]: a missing key reads as [false]. *)
Definition index (currentPods : gmap string bool) (name : string) : bool :=
  default false (currentPods !! name).

(** Lines 170-176: under the write lock,

      for name := range d.pods { if !currentPods[name] { delete(d.pods, name) } }

    Every key of the map is visited once, in an order Go does not fix. *)
Definition prune (currentPods : gmap string bool) (store : gmap string PodStatusInfo)
  : gmap string PodStatusInfo :=
  foldl (λ m name, if negb (index currentPods name) then delete name m else m)
        store (map_to_list store).*1.

(** ** Reconciler: [updatePodStatuses] and [monitorPods] *)

(** What the cluster and the pods answer during one cycle. *)
Inductive ListOutcome :=
| ListErr (cause : string)
| ListOk (Items : list Pod).

Record Cycle := {
  (** [d.clientset.CoreV1().Pods("").List(ctx, ...)] *)
  Pods_List : ListOutcome;
  (** the answer to the GET of the [i]-th iteration of the loop *)
  client_Get : nat → string → Outcome
}.

Definition with_Error (r : PodStatusInfo) (e : string) : PodStatusInfo :=
  {| Name := Name r; IP := IP r; Node := Node r; Status := Status r;
     Info := Info r; Error := e; LastCheck := LastCheck r;
     ReplicaSetID := ReplicaSetID r |}.

Definition with_Info (r : PodStatusInfo) (i : option PodInfo) : PodStatusInfo :=
  {| Name := Name r; IP := IP r; Node := Node r; Status := Status r;
     Info := i; Error := Error r; LastCheck := LastCheck r;
     ReplicaSetID := ReplicaSetID r |}.

(** [pod.Status.Phase == "Running" && pod.Status.PodIP != ""] *)
Definition queried (pod : Pod) : bool :=
  String.eqb (pod_Phase pod) "Running" && negb (String.eqb (pod_PodIP pod) "").

Section Reconciler.
(** [clock k] is what the [k]-th call of [time.Now()] returns. *)
Variable clock : nat → Time.
Variable Unmarshal : string → decoded PodInfo.

(** Lines 137-162, the body of the loop up to the lock: the record of one
    pod, and the requests made for it.  [now] is the reading of
    [time.Now()], [get] the answer of the network in this iteration. *)
Definition podStatusOf (get : string → Outcome) (now : Time) (pod : Pod)
  : PodStatusInfo * list Event :=
  let podStatus :=
    {| Name := pod_Name pod;
       IP := pod_PodIP pod;
       Node := pod_NodeName pod;
       Status := pod_Phase pod;
       Info := None;
       Error := "";
       LastCheck := now;
       ReplicaSetID := replicaSetID (pod_Name pod) |} in
  if queried pod then
    let '(info, err, evs) := getPodInfo Unmarshal get (pod_PodIP pod) in
    match err with
    | Some e => (with_Error podStatus (Error_string e), evs)
    | None => (with_Info podStatus info, evs)
    end
  else (podStatus, []).

(** Lines 134-167: [for _, pod := range pods.Items].  [i] is the index of
    the iteration, [t] the number of clock readings taken so far. *)
Fixpoint rangeItems (c : Cycle) (i : nat) (Items : list Pod) (t : nat)
    (currentPods : gmap string bool) (store : gmap string PodStatusInfo)
  : gmap string bool * gmap string PodStatusInfo * list Event :=
  match Items with
  | [] => (currentPods, store, [])
  | pod :: rest =>
      let currentPods := <[pod_Name pod := true]> currentPods in
      let '(podStatus, evs) := podStatusOf (client_Get c i) (clock t) pod in
      let store := <[pod_Name pod := podStatus]> store in
      let '(currentPods', store', evs') :=
        rangeItems c (S i) rest (S t) currentPods store in
      (currentPods', store', (evs ++ EvUnlock store :: evs')%list)
  end.

(** [updatePodStatuses], lines 122-177.  The result is the number of clock
    readings taken so far, the dashboard, and the events of the cycle. *)
Definition updatePodStatuses (c : Cycle) (t : nat) (d : Dashboard)
  : nat * Dashboard * list Event :=
  match Pods_List c with
  | ListErr cause => (t, d, [EvLog ("Error listing pods: " +:+ cause)])
  | ListOk Items =>
      let '(currentPods, store, evs) := rangeItems c 0 Items t ∅ (pods d) in
      let store := prune currentPods store in
      ((t + length Items)%nat, {| pods := store |}, (evs ++ [EvUnlock store])%list)
  end.

(** [monitorPods], lines 108-120: one cycle per tick of the ticker, until
    the context is done.  [cycles] are the ticks that are served. *)
Fixpoint monitorPods (cycles : list Cycle) (t : nat) (d : Dashboard)
  : nat * Dashboard * list Event :=
  match cycles with
  | [] => (t, d, [])
  | c :: rest =>
      let '(t1, d1, evs1) := updatePodStatuses c t d in
      let '(t2, d2, evs2) := monitorPods rest t1 d1 in
      (t2, d2, (evs1 ++ evs2)%list)
  end.

(** The records a cycle builds, in the order of [pods.Items]. *)
Fixpoint records (c : Cycle) (i : nat) (Items : list Pod) (t : nat)
  : list PodStatusInfo :=
  match Items with
  | [] => []
  | pod :: rest =>
      (podStatusOf (client_Get c i) (clock t) pod).1 :: records c (S i) rest (S t)
  end.
End Reconciler.

(** ** Snapshot Reader *)

(** [handleAPI] encodes [d.pods] under the read lock; [handleIndex], lines
    682-687, copies its values under the read lock.  Both read the map as a
    whole, at a moment when no writer holds the lock. *)
Definition snapshot (d : Dashboard) : gmap string PodStatusInfo := pods d.

(** ** Facts about the store *)

(** The maps a sequence of upserts goes through. *)
Fixpoint scan (store : gmap string PodStatusInfo) (rs : list PodStatusInfo)
  : list (gmap string PodStatusInfo) :=
  match rs with
  | [] => []
  | r :: rs' => upsert r store :: scan (upsert r store) rs'
  end.

Definition upserts (store : gmap string PodStatusInfo) (rs : list PodStatusInfo)
  : gmap string PodStatusInfo :=
  foldl (λ m r, upsert r m) store rs.

Lemma scan_lookup store rs k :
  scan store rs !! k = if decide (k < length rs) then Some (upserts store (take (S k) rs)) else None.
Proof.
  revert store k. induction rs as [|r rs IH]; intros store k.
  - by destruct k.
  - destruct k as [|k]; [done|].
    change (scan store (r :: rs) !! S k) with (scan (upsert r store) rs !! k).
    rewrite IH. cbn [length]. by do 2 destruct (decide _); try lia.
Qed.

Lemma lookup_upserts_other store rs name :
  name ∉ Name <$> rs → upserts store rs !! name = store !! name.
Proof.
  revert store. induction rs as [|r rs IH]; intros store Hnot; simpl; [done|].
  rewrite ?fmap_cons, not_elem_of_cons in Hnot. destruct Hnot as [Hne Hnot].
  rewrite IH by done. unfold upsert. by rewrite lookup_insert_ne.
Qed.

Lemma lookup_upserts_Some store rs name r :
  upserts store rs !! name = Some r →
  (r ∈ rs ∧ Name r = name) ∨ ((name ∉ Name <$> rs) ∧ store !! name = Some r).
Proof.
  revert store. induction rs as [|r0 rs IH]; intros store; simpl.
  - intros H. right. split; [apply not_elem_of_nil|done].
  - intros H. apply IH in H as [[Hin Hn]|[Hnot H]].
    + left. split; [by right|done].
    + unfold upsert in H. destruct (decide (Name r0 = name)) as [<-|Hne].
      * rewrite lookup_insert_eq in H. injection H as <-. left. split; [by left|done].
      * rewrite lookup_insert_ne in H by done. right. split; [|done].
        rewrite ?fmap_cons, not_elem_of_cons. by split.
Qed.

Lemma lookup_upserts_is_Some store rs name :
  name ∈ Name <$> rs → is_Some (upserts store rs !! name).
Proof.
  revert store. induction rs as [|r rs IH]; intros store; simpl.
  - by intros ?%elem_of_nil.
  - rewrite ?fmap_cons, elem_of_cons. intros [->|Hin]; [|by apply IH].
    destruct (decide (Name r ∈ Name <$> rs)) as [Hin|Hnot]; [by apply IH|].
    rewrite lookup_upserts_other by done. unfold upsert.
    rewrite lookup_insert_eq. eauto.
Qed.

Lemma lookup_foldl_delete (keep : string → bool) (l : list string)
    (store : gmap string PodStatusInfo) name :
  foldl (λ m k, if negb (keep k) then delete k m else m) store l !! name
  = if negb (keep name) && bool_decide (name ∈ l) then None else store !! name.
Proof.
  revert store. induction l as [|k l IH]; intros store; simpl.
  - by rewrite andb_false_r.
  - rewrite IH. destruct (keep name) eqn:Hk; simpl.
    + destruct (keep k) eqn:Hk'; simpl; [done|].
      rewrite lookup_delete_ne; [done|]. intros ->. congruence.
    + destruct (decide (name = k)) as [->|Hne].
      * rewrite Hk. simpl. rewrite lookup_delete_eq.
        rewrite (bool_decide_eq_true_2 (k ∈ k :: l)) by left. by case_bool_decide.
      * assert (bool_decide (name ∈ k :: l) = bool_decide (name ∈ l)) as ->.
        { apply bool_decide_ext. rewrite elem_of_cons. tauto. }
        case_bool_decide; [done|]. destruct (keep k); simpl; [done|].
        by rewrite lookup_delete_ne.
Qed.

(** A pruned map keeps exactly the entries whose key is current. *)
Lemma lookup_prune currentPods store name :
  prune currentPods store !! name
  = if index currentPods name then store !! name else None.
Proof.
  unfold prune. rewrite lookup_foldl_delete.
  destruct (index currentPods name); simpl; [done|].
  case_bool_decide as Hin; [done|].
  destruct (store !! name) as [r|] eqn:E; [|done].
  exfalso. apply Hin. apply list_elem_of_fmap. exists (name, r).
  split; [done|]. by apply elem_of_map_to_list.
Qed.

(** ** Facts about one cycle *)

Lemma unlocked_app evs1 evs2 : unlocked (evs1 ++ evs2) = (unlocked evs1 ++ unlocked evs2)%list.
Proof. apply omap_app. Qed.

Lemma requests_app evs1 evs2 : requests (evs1 ++ evs2) = (requests evs1 ++ requests evs2)%list.
Proof. apply omap_app. Qed.

Definition info_url (pod : Pod) : HttpRequest :=
  {| req_Method := "GET"; req_URL := "http://" +:+ pod_PodIP pod +:+ ":8080/api/info" |}.

Section ReconcilerFacts.
Variable clock : nat → Time.
Variable Unmarshal : string → decoded PodInfo.

(** The fields a record copies from the descriptor and the clock. *)
Lemma podStatusOf_copied get now pod :
  let r := (podStatusOf Unmarshal get now pod).1 in
  Name r = pod_Name pod ∧ IP r = pod_PodIP pod ∧ Node r = pod_NodeName pod ∧
  Status r = pod_Phase pod ∧ LastCheck r = now ∧
  ReplicaSetID r = replicaSetID (pod_Name pod).
Proof.
  unfold podStatusOf. destruct (queried pod); [|done].
  destruct (getPodInfo _ _ _) as [[info [e|]] evs]; done.
Qed.

Lemma podStatusOf_Name get now pod : Name (podStatusOf Unmarshal get now pod).1 = pod_Name pod.
Proof. apply podStatusOf_copied. Qed.

(** A record never carries both, and a pod that is not queried carries
    neither. *)
Lemma podStatusOf_exclusive get now pod :
  let r := (podStatusOf Unmarshal get now pod).1 in
  (Info r = None ∨ Error r = "") ∧
  (queried pod = false → Info r = None ∧ Error r = "").
Proof.
  unfold podStatusOf. destruct (queried pod); [|by split; [left|]].
  pose proof (getPodInfo_one_of Unmarshal get (pod_PodIP pod)) as H.
  destruct (getPodInfo _ _ _) as [[[info|] [e|]] evs]; simpl in *;
    try done; split; try done; (by left) || (by right).
Qed.

Lemma podStatusOf_requests get now pod :
  requests (podStatusOf Unmarshal get now pod).2 = if queried pod then [info_url pod] else [].
Proof.
  unfold podStatusOf. destruct (queried pod); [|done].
  pose proof (getPodInfo_requests Unmarshal get (pod_PodIP pod)) as H.
  destruct (getPodInfo _ _ _) as [[info [e|]] evs]; simpl in *; by subst.
Qed.

Lemma podStatusOf_unlocked get now pod : unlocked (podStatusOf Unmarshal get now pod).2 = [].
Proof.
  unfold podStatusOf. destruct (queried pod); [|done].
  pose proof (getPodInfo_requests Unmarshal get (pod_PodIP pod)) as H.
  destruct (getPodInfo _ _ _) as [[info [e|]] evs]; simpl in *; by subst.
Qed.

Lemma records_Name c i Items t : Name <$> records clock Unmarshal c i Items t = pod_Name <$> Items.
Proof.
  revert i t. induction Items as [|pod rest IH]; intros i t; [done|].
  cbn [records]. rewrite !fmap_cons, IH. by rewrite podStatusOf_Name.
Qed.

Lemma records_length c i Items t : length (records clock Unmarshal c i Items t) = length Items.
Proof. by rewrite <- (length_fmap Name), records_Name, length_fmap. Qed.

Lemma records_lookup c i Items t k :
  records clock Unmarshal c i Items t !! k
  = (λ pod, (podStatusOf Unmarshal (client_Get c (i + k)) (clock (t + k)) pod).1) <$> Items !! k.
Proof.
  revert i t k. induction Items as [|pod rest IH]; intros i t k; [by destruct k|].
  destruct k as [|k]; cbn [records].
  - by rewrite !Nat.add_0_r.
  - rewrite !lookup_cons. rewrite IH. by rewrite <- !Nat.add_succ_comm.
Qed.

Lemma rangeItems_store c i Items t currentPods store :
  (rangeItems clock Unmarshal c i Items t currentPods store).1.2 = upserts store (records clock Unmarshal c i Items t).
Proof.
  revert i t currentPods store.
  induction Items as [|pod rest IH]; intros i t currentPods store; [done|].
  cbn [rangeItems records].
  pose proof (podStatusOf_Name (client_Get c i) (clock t) pod) as HN.
  destruct (podStatusOf Unmarshal _ _ pod) as [podStatus evs]. simpl in HN.
  specialize (IH (S i) (S t) (<[pod_Name pod:=true]> currentPods)
                 (<[pod_Name pod:=podStatus]> store)).
  destruct (rangeItems _ _ _ _ _ _ _ _) as [[cur' store'] evs'].
  simpl in *. subst store'. unfold upsert. by rewrite HN.
Qed.

Lemma rangeItems_currentPods c i Items t currentPods store name :
  index (rangeItems clock Unmarshal c i Items t currentPods store).1.1 name
  = index currentPods name || bool_decide (name ∈ pod_Name <$> Items).
Proof.
  revert i t currentPods store.
  induction Items as [|pod rest IH]; intros i t currentPods store.
  - simpl. by rewrite orb_false_r.
  - cbn [rangeItems].
    destruct (podStatusOf Unmarshal _ _ pod) as [podStatus evs].
    specialize (IH (S i) (S t) (<[pod_Name pod:=true]> currentPods)
                   (<[pod_Name pod:=podStatus]> store)).
    destruct (rangeItems _ _ _ _ _ _ _ _) as [[cur' store'] evs'].
    simpl in *. rewrite IH. unfold index.
    destruct (decide (pod_Name pod = name)) as [<-|Hne].
    + rewrite lookup_insert_eq. simpl.
      rewrite (bool_decide_eq_true_2 (_ ∈ _ :: _)) by left. by rewrite orb_true_r.
    + rewrite lookup_insert_ne by done. f_equal.
      apply bool_decide_ext. rewrite elem_of_cons. intuition congruence.
Qed.

Lemma rangeItems_unlocked c i Items t currentPods store :
  unlocked (rangeItems clock Unmarshal c i Items t currentPods store).2 = scan store (records clock Unmarshal c i Items t).
Proof.
  revert i t currentPods store.
  induction Items as [|pod rest IH]; intros i t currentPods store; [done|].
  cbn [rangeItems records scan].
  pose proof (podStatusOf_Name (client_Get c i) (clock t) pod) as HN.
  pose proof (podStatusOf_unlocked (client_Get c i) (clock t) pod) as HU.
  destruct (podStatusOf Unmarshal _ _ pod) as [podStatus evs]. simpl in HN, HU.
  specialize (IH (S i) (S t) (<[pod_Name pod:=true]> currentPods)
                 (<[pod_Name pod:=podStatus]> store)).
  destruct (rangeItems _ _ _ _ _ _ _ _) as [[cur' store'] evs'].
  simpl in *. rewrite unlocked_app, HU. simpl. rewrite IH.
  unfold upsert. by rewrite HN.
Qed.

Lemma rangeItems_requests c i Items t currentPods store :
  requests (rangeItems clock Unmarshal c i Items t currentPods store).2
  = info_url <$> filter (λ pod, queried pod = true) Items.
Proof.
  revert i t currentPods store.
  induction Items as [|pod rest IH]; intros i t currentPods store; [done|].
  cbn [rangeItems].
  pose proof (podStatusOf_requests (client_Get c i) (clock t) pod) as HR.
  destruct (podStatusOf Unmarshal _ _ pod) as [podStatus evs]. simpl in HR.
  specialize (IH (S i) (S t) (<[pod_Name pod:=true]> currentPods)
                 (<[pod_Name pod:=podStatus]> store)).
  destruct (rangeItems _ _ _ _ _ _ _ _) as [[cur' store'] evs'].
  cbn [fst snd] in *. rewrite requests_app, HR, filter_cons.
  change (requests (EvUnlock (<[pod_Name pod:=podStatus]> store) :: evs'))
    with (requests evs').
  rewrite IH. destruct (queried pod).
  - by rewrite decide_True.
  - by rewrite decide_False.
Qed.
End ReconcilerFacts.

(** A record is well formed when it does not carry both a [PodInfo] and an
    error, and carries neither unless its pod was running with an address. *)
Definition well_formed (r : PodStatusInfo) : Prop :=
  (Info r = None ∨ Error r = "") ∧
  (Status r ≠ "Running" ∨ IP r = "" → Info r = None ∧ Error r = "").

Lemma queried_false pod :
  queried pod = false ↔ pod_Phase pod ≠ "Running" ∨ pod_PodIP pod = "".
Proof.
  unfold queried.
  destruct (String.eqb_spec (pod_Phase pod) "Running") as [->|Hp];
    destruct (String.eqb_spec (pod_PodIP pod) "") as [->|Hi]; simpl;
    intuition congruence.
Qed.

Lemma queried_true pod :
  queried pod = true ↔ pod_Phase pod = "Running" ∧ pod_PodIP pod ≠ "".
Proof.
  unfold queried.
  destruct (String.eqb_spec (pod_Phase pod) "Running") as [->|Hp];
    destruct (String.eqb_spec (pod_PodIP pod) "") as [->|Hi]; simpl;
    intuition congruence.
Qed.

Section CycleFacts.
Variable clock : nat → Time.
Variable Unmarshal : string → decoded PodInfo.

Lemma podStatusOf_well_formed get now pod :
  well_formed (podStatusOf Unmarshal get now pod).1.
Proof.
  destruct (podStatusOf_copied Unmarshal get now pod) as (_ & HIP & _ & HSt & _).
  destruct (podStatusOf_exclusive Unmarshal get now pod) as [Hex Hnot].
  split; [done|]. rewrite HIP, HSt. intros H. by apply Hnot, queried_false.
Qed.

Lemma records_elem c i Items t r :
  r ∈ records clock Unmarshal c i Items t →
  ∃ k pod, Items !! k = Some pod ∧
           r = (podStatusOf Unmarshal (client_Get c (i + k)) (clock (t + k)) pod).1.
Proof.
  intros [k Hk]%list_elem_of_lookup. rewrite records_lookup in Hk.
  destruct (Items !! k) as [pod|] eqn:E; [|done].
  injection Hk as <-. eauto.
Qed.

Lemma records_well_formed c i Items t r :
  r ∈ records clock Unmarshal c i Items t → well_formed r.
Proof. intros (k & pod & _ & ->)%records_elem. apply podStatusOf_well_formed. Qed.

(** The result of a cycle whose discovery succeeded. *)
Lemma updatePodStatuses_ok c t d Items :
  Pods_List c = ListOk Items →
  let r := rangeItems clock Unmarshal c 0 Items t ∅ (pods d) in
  let store := prune r.1.1 (upserts (pods d) (records clock Unmarshal c 0 Items t)) in
  updatePodStatuses clock Unmarshal c t d
  = ((t + length Items)%nat, {| pods := store |}, (r.2 ++ [EvUnlock store])%list).
Proof.
  intros HL. unfold updatePodStatuses. rewrite HL.
  pose proof (rangeItems_store clock Unmarshal c 0 Items t ∅ (pods d)) as Hs.
  destruct (rangeItems _ _ _ _ _ _ _ _) as [[cur store] evs]. simpl in *. by subst.
Qed.

Lemma lookup_updatePodStatuses c t d Items name :
  Pods_List c = ListOk Items →
  pods (updatePodStatuses clock Unmarshal c t d).1.2 !! name
  = if bool_decide (name ∈ pod_Name <$> Items)
    then upserts (pods d) (records clock Unmarshal c 0 Items t) !! name
    else None.
Proof.
  intros HL. rewrite (updatePodStatuses_ok _ _ _ _ HL). cbn [fst snd pods].
  rewrite lookup_prune, rangeItems_currentPods. unfold index at 1.
  by rewrite lookup_empty.
Qed.

Lemma updatePodStatuses_unlocked c t d Items :
  Pods_List c = ListOk Items →
  unlocked (updatePodStatuses clock Unmarshal c t d).2
  = (scan (pods d) (records clock Unmarshal c 0 Items t)
     ++ [pods (updatePodStatuses clock Unmarshal c t d).1.2])%list.
Proof.
  intros HL. rewrite (updatePodStatuses_ok _ _ _ _ HL). cbn [fst snd pods].
  by rewrite unlocked_app, rangeItems_unlocked.
Qed.

Lemma updatePodStatuses_requests c t d Items :
  Pods_List c = ListOk Items →
  requests (updatePodStatuses clock Unmarshal c t d).2
  = info_url <$> filter (λ pod, queried pod = true) Items.
Proof.
  intros HL. rewrite (updatePodStatuses_ok _ _ _ _ HL). cbn [fst snd pods].
  rewrite requests_app, rangeItems_requests. apply app_nil_r.
Qed.

(** Every record in the map after a cycle was built in that cycle. *)
Lemma updatePodStatuses_fresh c t d Items name r :
  Pods_List c = ListOk Items →
  pods (updatePodStatuses clock Unmarshal c t d).1.2 !! name = Some r →
  r ∈ records clock Unmarshal c 0 Items t ∧ Name r = name.
Proof.
  intros HL. rewrite (lookup_updatePodStatuses _ _ _ _ _ HL).
  case_bool_decide as Hin; [|done].
  intros [?|[Hnot _]]%lookup_upserts_Some; [done|].
  by rewrite records_Name in Hnot.
Qed.

Lemma updatePodStatuses_dom c t d Items :
  Pods_List c = ListOk Items →
  dom (pods (updatePodStatuses clock Unmarshal c t d).1.2)
  = (list_to_set (pod_Name <$> Items) : gset string).
Proof.
  intros HL. apply set_eq. intros name.
  rewrite elem_of_dom, elem_of_list_to_set, (lookup_updatePodStatuses _ _ _ _ _ HL).
  case_bool_decide as Hin.
  - split; [done|]. intros _. apply lookup_upserts_is_Some. by rewrite records_Name.
  - split; [by intros [? ?]|done].
Qed.
End CycleFacts.

(** C1. After a cycle whose discovery succeeded, the identities in the
    State Store are exactly the identities discovery returned: each of
    them has the record this cycle built for it, and every other identity
    is gone, whatever the store held before. *)
Theorem prune_invariant clock Unmarshal c t d Items :
  Pods_List c = ListOk Items →
  let d' := (updatePodStatuses clock Unmarshal c t d).1.2 in
  dom (pods d') = (list_to_set (pod_Name <$> Items) : gset string) ∧
  (∀ name, name ∈ pod_Name <$> Items →
     ∃ r, pods d' !! name = Some r ∧ Name r = name ∧
          r ∈ records clock Unmarshal c 0 Items t) ∧
  (∀ name, name ∉ pod_Name <$> Items → pods d' !! name = None).
Proof.
  intros HL d'. split; [by apply updatePodStatuses_dom|]. split.
  - intros name Hin.
    assert (is_Some (pods d' !! name)) as [r Hr].
    { apply elem_of_dom. unfold d'. rewrite (updatePodStatuses_dom _ _ _ _ _ _ HL).
      by apply elem_of_list_to_set. }
    exists r. split; [done|].
    by destruct (updatePodStatuses_fresh _ _ _ _ _ _ _ _ HL Hr).
  - intros name Hnot. unfold d'. rewrite (lookup_updatePodStatuses _ _ _ _ _ _ _ HL).
    by rewrite bool_decide_eq_false_2.
Qed.

(** ** A concrete cluster *)

Module Scenario.

Definition clock (k : nat) : Time := (1000 + Z.of_nat k)%Z.

Definition not_ready : PodInfo :=
  {| PodName := "web-7f8c9d-abcde"; PodIP := "10.0.0.5"; NodeHostname := "node-1";
     ContainerAge := 42000000000%Z; StartTime := "2025-01-01T00:00:00Z";
     PodProbeStatus := {| Started := true; Live := true; Ready := false |};
     StartupDelay := 10%Z; StartupReady := "" |}.

Definition Unmarshal (body : string) : decoded PodInfo :=
  if String.eqb body "{probeStatus:{started:true,live:true,ready:false}}"
  then Decoded not_ready
  else DecodeError "invalid character".

Definition answers : HttpResponse :=
  {| StatusCode := 200%Z;
     RespBody := {| data := "{probeStatus:{started:true,live:true,ready:false}}";
                    read_err := None |} |}.

Definition web_a : Pod :=
  {| pod_Name := "web-7f8c9d-abcde"; pod_PodIP := "10.0.0.5";
     pod_NodeName := "node-1"; pod_Phase := "Running" |}.

Definition web_b : Pod :=
  {| pod_Name := "web-7f8c9d-fghij"; pod_PodIP := "";
     pod_NodeName := ""; pod_Phase := "Pending" |}.

Definition web_c : Pod :=
  {| pod_Name := "web-7f8c9d-klmno"; pod_PodIP := "10.0.0.7";
     pod_NodeName := "node-2"; pod_Phase := "Running" |}.

(** Every pod answers. *)
Definition healthy : Cycle :=
  {| Pods_List := ListOk [web_a; web_b; web_c];
     client_Get := λ _ _, Responded answers |}.

(** The first pod of the list times out, the others answer. *)
Definition first_times_out : Cycle :=
  {| Pods_List := ListOk [web_a; web_b; web_c];
     client_Get := λ i _, if Nat.eqb i 0 then Failed "context deadline exceeded"
                          else Responded answers |}.

(** The cluster API is unreachable. *)
Definition unreachable : Cycle :=
  {| Pods_List := ListErr "connection refused";
     client_Get := λ _ _, Failed "connection refused" |}.

(** A store left by an earlier cycle, holding a pod that is gone since. *)
Definition gone : PodStatusInfo :=
  {| Name := "web-5b6c7d-zzzzz"; IP := "10.0.0.9"; Node := "node-3";
     Status := "Running"; Info := Some not_ready; Error := "";
     LastCheck := 990%Z; ReplicaSetID := "5b6c7d" |}.

Definition before : Dashboard := {| pods := {[ "web-5b6c7d-zzzzz" := gone ]} |}.

End Scenario.

(** The scenarios of the specification: a running pod that reports
    [ready = false], a pending pod without an address, a pod that times
    out. *)
Example scenario_running_not_ready :
  let d := (updatePodStatuses Scenario.clock Scenario.Unmarshal
              Scenario.healthy 0 NewDashboard).1.2 in
  ∃ r info, pods d !! "web-7f8c9d-abcde" = Some r ∧ Info r = Some info ∧
            Ready (PodProbeStatus info) = false ∧ Error r = "" ∧
            Status r = "Running" ∧ ReplicaSetID r = "7f8c9d".
Proof. vm_compute. eexists _, _. by repeat split. Qed.

Example scenario_pending_no_address :
  let res := updatePodStatuses Scenario.clock Scenario.Unmarshal
               Scenario.healthy 0 NewDashboard in
  ∃ r, pods res.1.2 !! "web-7f8c9d-fghij" = Some r ∧ Info r = None ∧ Error r = "" ∧
       requests res.2 = [info_url Scenario.web_a; info_url Scenario.web_c].
Proof. vm_compute. eexists. by repeat split. Qed.

Example scenario_timeout :
  let d := (updatePodStatuses Scenario.clock Scenario.Unmarshal
              Scenario.first_times_out 0 NewDashboard).1.2 in
  ∃ r, pods d !! "web-7f8c9d-abcde" = Some r ∧ Info r = None ∧
       Error r = "failed to connect: context deadline exceeded".
Proof. vm_compute. eexists. by repeat split. Qed.

Lemma prune_invariant_witness :
  dom (pods (updatePodStatuses Scenario.clock Scenario.Unmarshal
               Scenario.healthy 0 Scenario.before).1.2)
  = (list_to_set ["web-7f8c9d-abcde"; "web-7f8c9d-fghij"; "web-7f8c9d-klmno"] : gset string).
Proof.
  exact (proj1 (prune_invariant Scenario.clock Scenario.Unmarshal Scenario.healthy 0
                  Scenario.before _ eq_refl)).
Defined.

(** C2. No record of a cycle carries both a [PodInfo] and an error, and a
    record whose pod is not in phase "Running" or has no address carries
    neither; this holds for every record the cycle builds and so for every
    record in the store after it.  The requests of the cycle are exactly
    those for the pods that are "Running" and have an address: no fetch is
    attempted for any other pod. *)
Theorem record_exclusive clock Unmarshal c t d Items :
  Pods_List c = ListOk Items →
  let res := updatePodStatuses clock Unmarshal c t d in
  (∀ r, r ∈ records clock Unmarshal c 0 Items t ∨
         (∃ name, pods res.1.2 !! name = Some r) →
     ¬ (Info r ≠ None ∧ Error r ≠ "") ∧
     (Status r ≠ "Running" ∨ IP r = "" → Info r = None ∧ Error r = "")) ∧
  requests res.2
  = info_url <$> filter (λ pod, pod_Phase pod = "Running" ∧ pod_PodIP pod ≠ "") Items.
Proof.
  intros HL res. split.
  - intros r Hr.
    assert (well_formed r) as [Hex Hnot].
    { destruct Hr as [Hr|[name Hr]].
      - by eapply records_well_formed.
      - apply (updatePodStatuses_fresh _ _ _ _ _ _ _ _ HL) in Hr as [Hr _].
        by eapply records_well_formed. }
    split; [|done]. intros [? ?]. by destruct Hex.
  - unfold res. rewrite (updatePodStatuses_requests _ _ _ _ _ _ HL). f_equal.
    apply list_filter_iff. intros pod. apply queried_true.
Qed.

Lemma record_exclusive_witness :
  requests (updatePodStatuses Scenario.clock Scenario.Unmarshal
              Scenario.first_times_out 0 Scenario.before).2
  = [info_url Scenario.web_a; info_url Scenario.web_c].
Proof.
  exact (proj2 (record_exclusive Scenario.clock Scenario.Unmarshal
                  Scenario.first_times_out 0 Scenario.before _ eq_refl)).
Defined.

(** C7. A cycle whose discovery fails leaves the State Store as it was: the
    dashboard is returned unchanged, the lock is never taken for a write,
    no pod is queried and the clock is not read; the failure is logged. *)
Theorem discovery_failure_no_mutation clock Unmarshal c t d cause :
  Pods_List c = ListErr cause →
  let res := updatePodStatuses clock Unmarshal c t d in
  res.1.2 = d ∧ snapshot res.1.2 = snapshot d ∧
  unlocked res.2 = [] ∧ requests res.2 = [] ∧ res.1.1 = t ∧
  res.2 = [EvLog ("Error listing pods: " +:+ cause)].
Proof. intros HL. unfold updatePodStatuses. rewrite HL. by repeat split. Qed.

Lemma discovery_failure_no_mutation_witness :
  (updatePodStatuses Scenario.clock Scenario.Unmarshal
     Scenario.unreachable 7 Scenario.before).1.2 = Scenario.before.
Proof.
  exact (proj1 (discovery_failure_no_mutation Scenario.clock Scenario.Unmarshal
                  Scenario.unreachable 7 Scenario.before _ eq_refl)).
Defined.

(** ** Isolation of fetch failures *)

(** Two sequences of upserts that differ only in records of other names
    leave the entry of [name] the same. *)
Lemma lookup_upserts_agree rs1 : ∀ rs2 store1 store2 name,
  store1 !! name = store2 !! name →
  length rs1 = length rs2 →
  (∀ j r1 r2, rs1 !! j = Some r1 → rs2 !! j = Some r2 →
     r1 = r2 ∨ (Name r1 ≠ name ∧ Name r2 ≠ name)) →
  upserts store1 rs1 !! name = upserts store2 rs2 !! name.
Proof.
  induction rs1 as [|r1 rs1 IH]; intros [|r2 rs2] store1 store2 name Hs Hlen Hrs;
    try done.
  simpl. apply IH.
  - unfold upsert. destruct (Hrs 0%nat r1 r2 eq_refl eq_refl) as [<-|[H1 H2]].
    + destruct (decide (Name r1 = name)) as [<-|Hne].
      * by rewrite !lookup_insert_eq.
      * by rewrite !lookup_insert_ne.
    + by rewrite !lookup_insert_ne.
  - simpl in Hlen. lia.
  - intros j. apply (Hrs (S j)).
Qed.

(** C8. Two cycles over the same discovery result, from the same store and
    clock, whose fetch outcomes differ only in the iteration of instance A,
    build the same record in every other iteration, and leave the same
    entry in the store under every identity other than A's; every
    discovered instance has an entry after either cycle. *)
Theorem fetch_failure_isolated clock Unmarshal c1 c2 t d Items a :
  Pods_List c1 = ListOk Items →
  Pods_List c2 = ListOk Items →
  (∀ j url, j ≠ a → client_Get c1 j url = client_Get c2 j url) →
  let d1 := (updatePodStatuses clock Unmarshal c1 t d).1.2 in
  let d2 := (updatePodStatuses clock Unmarshal c2 t d).1.2 in
  (∀ j, j ≠ a →
     records clock Unmarshal c1 0 Items t !! j = records clock Unmarshal c2 0 Items t !! j) ∧
  (∀ A name, Items !! a = Some A → name ≠ pod_Name A →
     pods d1 !! name = pods d2 !! name) ∧
  (∀ j B, Items !! j = Some B →
     is_Some (pods d1 !! pod_Name B) ∧ is_Some (pods d2 !! pod_Name B)).
Proof.
  intros HL1 HL2 Hget d1 d2.
  assert (∀ j, j ≠ a →
            records clock Unmarshal c1 0 Items t !! j
            = records clock Unmarshal c2 0 Items t !! j) as Hrec.
  { intros j Hj. rewrite !records_lookup. destruct (Items !! j) as [pod|]; [|done].
    simpl. f_equal. unfold podStatusOf, getPodInfo.
    by rewrite (Hget _ _ Hj). }
  split; [done|]. split.
  - intros A name HA Hne. unfold d1, d2.
    rewrite (lookup_updatePodStatuses _ _ _ _ _ _ _ HL1).
    rewrite (lookup_updatePodStatuses _ _ _ _ _ _ _ HL2).
    case_bool_decide; [|done].
    apply lookup_upserts_agree; [done|by rewrite !records_length|].
    intros j r1 r2 H1 H2. destruct (decide (j = a)) as [->|Hj].
    + right. rewrite records_lookup, HA in H1, H2.
      injection H1 as <-. injection H2 as <-.
      by rewrite !podStatusOf_Name.
    + left. rewrite (Hrec _ Hj) in H1. congruence.
  - intros j B HB.
    assert (pod_Name B ∈ pod_Name <$> Items) as Hin.
    { apply list_elem_of_fmap_2. by eapply list_elem_of_lookup_2. }
    split; apply elem_of_dom; unfold d1, d2.
    + rewrite (updatePodStatuses_dom _ _ _ _ _ _ HL1). by apply elem_of_list_to_set.
    + rewrite (updatePodStatuses_dom _ _ _ _ _ _ HL2). by apply elem_of_list_to_set.
Qed.

Lemma fetch_failure_isolated_witness :
  pods (updatePodStatuses Scenario.clock Scenario.Unmarshal
          Scenario.healthy 0 Scenario.before).1.2 !! "web-7f8c9d-klmno"
  = pods (updatePodStatuses Scenario.clock Scenario.Unmarshal
            Scenario.first_times_out 0 Scenario.before).1.2 !! "web-7f8c9d-klmno".
Proof.
  refine (proj1 (proj2 (fetch_failure_isolated Scenario.clock Scenario.Unmarshal
                          Scenario.healthy Scenario.first_times_out 0 Scenario.before
                          _ 0%nat eq_refl eq_refl _))
            Scenario.web_a "web-7f8c9d-klmno" eq_refl _).
  - intros [|j] url Hj; [done|reflexivity].
  - discriminate.
Defined.

(** ** Readers interleaved with a cycle *)

(** The writer holds [d.mu] exclusively from [Lock()] to [Unlock()], and a
    reader takes its snapshot under [RLock()]: a reader sees the map as the
    last [Unlock()] of the writer left it.  The system is the shared map,
    what the reconciler has yet to do, and the snapshots taken so far. *)
Record System := {
  shared : gmap string PodStatusInfo;
  pending : list Event;
  seen : list (gmap string PodStatusInfo)
}.

(** The effect of one event of the reconciler on the shared map. *)
Definition commit (ev : Event) (store : gmap string PodStatusInfo)
  : gmap string PodStatusInfo :=
  match ev with
  | EvUnlock store' => store'
  | _ => store
  end.

Inductive step : System → System → Prop :=
| step_reconciler ev evs store snaps :
    step {| shared := store; pending := ev :: evs; seen := snaps |}
         {| shared := commit ev store; pending := evs; seen := snaps |}
| step_reader store evs snaps :
    step {| shared := store; pending := evs; seen := snaps |}
         {| shared := store; pending := evs;
            seen := snaps ++ [snapshot {| pods := store |}] |}.

(** One cycle about to start, no snapshot taken yet. *)
Definition cycle_start clock Unmarshal (c : Cycle) (t : nat) (d : Dashboard) : System :=
  {| shared := pods d;
     pending := (updatePodStatuses clock Unmarshal c t d).2;
     seen := [] |}.

(** The specification's wording: every snapshot taken while the cycle runs
    is the store as it was before the cycle or as it is after it. *)
Definition cycle_atomic clock Unmarshal (c : Cycle) (t : nat) (d : Dashboard) : Prop :=
  ∀ sys, rtc step (cycle_start clock Unmarshal c t d) sys →
    ∀ s, s ∈ seen sys →
      s = pods d ∨ s = pods (updatePodStatuses clock Unmarshal c t d).1.2.

(** The records a cycle builds; none when discovery fails. *)
Definition built clock Unmarshal (c : Cycle) (t : nat) : list PodStatusInfo :=
  match Pods_List c with
  | ListErr _ => []
  | ListOk Items => records clock Unmarshal c 0 Items t
  end.

Lemma step_within (L : list (gmap string PodStatusInfo)) sys sys' :
  step sys sys' →
  shared sys ∈ L ∧ unlocked (pending sys) ⊆ L ∧ seen sys ⊆ L →
  shared sys' ∈ L ∧ unlocked (pending sys') ⊆ L ∧ seen sys' ⊆ L.
Proof.
  intros [ev evs store snaps|store evs snaps] (Hs & Hp & Hn); simpl in *.
  - destruct ev as [req|line|store']; simpl in *; try done.
    split; [apply Hp; by left|]. split; [|done].
    intros x Hx. apply Hp. by right.
  - split; [done|]. split; [done|].
    intros x [Hx|Hx%list_elem_of_singleton]%elem_of_app; [by apply Hn|by subst].
Qed.

Lemma rtc_step_within (L : list (gmap string PodStatusInfo)) sys sys' :
  rtc step sys sys' →
  shared sys ∈ L ∧ unlocked (pending sys) ⊆ L ∧ seen sys ⊆ L →
  shared sys' ∈ L ∧ unlocked (pending sys') ⊆ L ∧ seen sys' ⊆ L.
Proof. induction 1 as [|x y z Hxy _ IH]; [done|]. intros H. by eapply IH, step_within. Qed.

Lemma updatePodStatuses_unlocked_built clock Unmarshal c t d s :
  s ∈ unlocked (updatePodStatuses clock Unmarshal c t d).2 →
  s = pods (updatePodStatuses clock Unmarshal c t d).1.2 ∨
  ∃ k, s = upserts (pods d) (take k (built clock Unmarshal c t)).
Proof.
  unfold built. destruct (Pods_List c) as [cause|Items] eqn:HL.
  - unfold updatePodStatuses. rewrite HL. simpl. by intros ?%elem_of_nil.
  - rewrite (updatePodStatuses_unlocked _ _ _ _ _ _ HL).
    intros [[k Hk]%list_elem_of_lookup|Hx%list_elem_of_singleton]%elem_of_app; [|by left].
    right. rewrite scan_lookup in Hk. destruct (decide _); [|done].
    injection Hk as <-. eauto.
Qed.

(** C4.  The lock is taken once per upsert and once for the prune, not once
    per cycle.  A snapshot taken while a cycle runs is the store as it was
    before the cycle with the first [k] records of the cycle upserted, for
    some [k], or the store at the end of the cycle: records appear whole
    and in the order of the discovery result, and the prune is seen at once
    or not at all. *)
Theorem snapshot_prefix_of_cycle clock Unmarshal c t d sys s :
  rtc step (cycle_start clock Unmarshal c t d) sys →
  s ∈ seen sys →
  s = pods (updatePodStatuses clock Unmarshal c t d).1.2 ∨
  ∃ k, s = upserts (pods d) (take k (built clock Unmarshal c t)).
Proof.
  intros Hrtc Hs.
  pose (L := pods d :: unlocked (updatePodStatuses clock Unmarshal c t d).2).
  destruct (rtc_step_within L _ _ Hrtc) as (_ & _ & Hseen).
  { simpl. split; [by left|]. split; [|by intros ? ?%elem_of_nil].
    intros x Hx. by right. }
  apply Hseen in Hs. apply elem_of_cons in Hs as [->|Hs].
  - right. exists 0%nat. by rewrite take_0.
  - by apply updatePodStatuses_unlocked_built.
Qed.

(** A reader can take its snapshot right after any [Unlock()] of the
    reconciler. *)
Lemma reader_after_unlock store evs1 s evs2 snaps :
  unlocked evs1 = [] →
  rtc step {| shared := store; pending := evs1 ++ EvUnlock s :: evs2; seen := snaps |}
           {| shared := s; pending := evs2; seen := snaps ++ [s] |}.
Proof.
  revert store. induction evs1 as [|ev evs1 IH]; intros store Hno.
  - eapply rtc_l; [apply step_reconciler|]. apply rtc_once, step_reader.
  - eapply rtc_l; [apply step_reconciler|]. apply IH.
    destruct ev; [done|done|discriminate].
Qed.

(** The store after the first upsert of the healthy cycle: the pod that is
    gone is still there, the first of the new pods is already there. *)
Definition torn : gmap string PodStatusInfo :=
  upsert (podStatusOf Scenario.Unmarshal (λ _, Responded Scenario.answers)
            (Scenario.clock 0) Scenario.web_a).1
         (pods Scenario.before).

Lemma torn_seen :
  rtc step
    (cycle_start Scenario.clock Scenario.Unmarshal Scenario.healthy 0 Scenario.before)
    {| shared := torn;
       pending := drop 2 (updatePodStatuses Scenario.clock Scenario.Unmarshal
                            Scenario.healthy 0 Scenario.before).2;
       seen := [torn] |}.
Proof. exact (reader_after_unlock _ [EvRequest (info_url Scenario.web_a)] torn _ [] eq_refl). Qed.

(** C4 does not hold with a whole cycle as the unit: a reader of the healthy
    cycle can see [torn], which is neither the store before the cycle nor
    the store after it. *)
Lemma snapshot_consistency_counterexample :
  ¬ cycle_atomic Scenario.clock Scenario.Unmarshal Scenario.healthy 0 Scenario.before.
Proof.
  intros H.
  destruct (H _ torn_seen torn) as [E|E]; [by left|..].
  - apply (f_equal (λ s, s !! "web-7f8c9d-abcde")) in E. vm_compute in E. discriminate.
  - apply (f_equal (λ s, s !! "web-5b6c7d-zzzzz")) in E. vm_compute in E. discriminate.
Qed.

Lemma snapshot_prefix_of_cycle_witness :
  torn = pods (updatePodStatuses Scenario.clock Scenario.Unmarshal
                 Scenario.healthy 0 Scenario.before).1.2 ∨
  ∃ k, torn = upserts (pods Scenario.before)
                (take k (built Scenario.clock Scenario.Unmarshal Scenario.healthy 0)).
Proof.
  apply (snapshot_prefix_of_cycle _ _ _ _ _ _ torn torn_seen). simpl. by left.
Defined.

(** ** Timestamps across cycles *)

Section Timestamps.
Variable clock : nat → Time.
Variable Unmarshal : string → decoded PodInfo.

(** Every record of the store was stamped by one of the first [t] readings
    of the clock. *)
Definition stamped_before (t : nat) (store : gmap string PodStatusInfo) : Prop :=
  ∀ name r, store !! name = Some r → ∃ k, (k < t)%nat ∧ LastCheck r = clock k.

(** From [store] at reading [t] to [store'] at reading [t']: a record of
    [store'] is a record [store] had under the same name, or was stamped by
    a reading from [t] on. *)
Definition advances (t : nat) (store : gmap string PodStatusInfo)
    (t' : nat) (store' : gmap string PodStatusInfo) : Prop :=
  (t ≤ t')%nat ∧
  ∀ name r, store' !! name = Some r →
    store !! name = Some r ∨ ∃ k, (t ≤ k < t')%nat ∧ LastCheck r = clock k.

(** [chain t s l t' s']: the stores [l] follow [s] one write after the
    other, from reading [t] to reading [t'], and end in [s']. *)
Inductive chain : nat → gmap string PodStatusInfo → list (gmap string PodStatusInfo) →
                  nat → gmap string PodStatusInfo → Prop :=
| chain_nil t s : chain t s [] t s
| chain_cons t s t1 s1 l t' s' :
    advances t s t1 s1 → chain t1 s1 l t' s' → chain t s (s1 :: l) t' s'.

Lemma chain_app t s l1 t1 s1 l2 t2 s2 :
  chain t s l1 t1 s1 → chain t1 s1 l2 t2 s2 → chain t s (l1 ++ l2) t2 s2.
Proof. induction 1; [done|]. intros. simpl. econstructor; eauto. Qed.

Lemma advances_stamped t s t' s' :
  advances t s t' s' → stamped_before t s → stamped_before t' s'.
Proof.
  intros [Hle Hadv] Hs name r [Hr|(k & Hk & E)]%Hadv.
  - destruct (Hs _ _ Hr) as (k & Hk & E). exists k. split; [lia|done].
  - exists k. split; [lia|done].
Qed.

(** A record found later in a chain is the one the first store had, or was
    stamped from [t] on. *)
Lemma chain_later t s l t' s' j sj name r :
  chain t s l t' s' → (s :: l) !! j = Some sj → sj !! name = Some r →
  s !! name = Some r ∨ ∃ k, (t ≤ k)%nat ∧ LastCheck r = clock k.
Proof.
  intros Hc. revert j. induction Hc as [t s|t s t1 s1 l t' s' [Hle Hadv] Hc IH]; intros j.
  - destruct j as [|j]; [|done]. intros [= <-] Hr. by left.
  - destruct j as [|j]; [intros [= <-] Hr; by left|].
    intros Hj Hr. destruct (IH j Hj Hr) as [Hr1|(k & Hk & E)].
    + destruct (Hadv _ _ Hr1) as [?|(k & Hk & E)]; [by left|].
      right. exists k. split; [lia|done].
    + right. exists k. split; [lia|done].
Qed.

Hypothesis clock_monotone : ∀ i j, (i ≤ j)%nat → (clock i ≤ clock j)%Z.

Lemma chain_monotone t s l t' s' :
  chain t s l t' s' → stamped_before t s →
  ∀ i j si sj name r r',
    (i ≤ j)%nat → (s :: l) !! i = Some si → (s :: l) !! j = Some sj →
    si !! name = Some r → sj !! name = Some r' →
    (LastCheck r ≤ LastCheck r')%Z.
Proof.
  intros Hc. induction Hc as [t s|t s t1 s1 l t' s' Hadv Hc IH];
    intros Hs i j si sj name r r' Hij Hi Hj Hr Hr'.
  - destruct i as [|i]; [|done]. destruct j as [|j]; [|done].
    injection Hi as <-. injection Hj as <-. rewrite Hr in Hr'. injection Hr' as <-. lia.
  - destruct i as [|i].
    + injection Hi as <-.
      destruct (chain_later _ _ _ _ _ _ _ _ _ (chain_cons _ _ _ _ _ _ _ Hadv Hc) Hj Hr')
        as [Hr0|(k & Hk & E)].
      * rewrite Hr in Hr0. injection Hr0 as <-. lia.
      * destruct (Hs _ _ Hr) as (k0 & Hk0 & E0). rewrite E, E0.
        apply clock_monotone. lia.
    + destruct j as [|j]; [lia|].
      apply (IH (advances_stamped _ _ _ _ Hadv Hs) i j si sj name r r');
        [lia|done..].
Qed.

(** The stores of a loop over [Items] form a chain. *)
Lemma chain_scan c i Items t store :
  chain t store (scan store (records clock Unmarshal c i Items t))
        (t + length Items) (upserts store (records clock Unmarshal c i Items t)).
Proof.
  revert i t store. induction Items as [|pod rest IH]; intros i t store.
  - simpl. rewrite Nat.add_0_r. constructor.
  - cbn [records scan upserts foldl length].
    replace (t + S (length rest))%nat with (S t + length rest)%nat by lia.
    econstructor; [|apply IH].
    split; [lia|]. intros name r. unfold upsert.
    destruct (decide (Name (podStatusOf Unmarshal (client_Get c i) (clock t) pod).1 = name))
      as [<-|Hne].
    + rewrite lookup_insert_eq. intros [= <-]. right. exists t. split; [lia|].
      apply podStatusOf_copied.
    + rewrite lookup_insert_ne by done. by left.
Qed.

Lemma chain_updatePodStatuses c t d :
  let res := updatePodStatuses clock Unmarshal c t d in
  chain t (pods d) (unlocked res.2) res.1.1 (pods res.1.2).
Proof.
  destruct (Pods_List c) as [cause|Items] eqn:HL.
  - unfold updatePodStatuses. rewrite HL. simpl. constructor.
  - cbn zeta. rewrite (updatePodStatuses_unlocked _ _ _ _ _ _ HL).
    rewrite (updatePodStatuses_ok _ _ _ _ _ _ HL). cbn [fst snd pods].
    eapply chain_app; [apply chain_scan|].
    econstructor; [|constructor].
    split; [lia|]. intros name r. rewrite lookup_prune.
    destruct (index _ name); [by left|done].
Qed.

Lemma chain_monitorPods cycles t d :
  let res := monitorPods clock Unmarshal cycles t d in
  chain t (pods d) (unlocked res.2) res.1.1 (pods res.1.2).
Proof.
  revert t d. induction cycles as [|c rest IH]; intros t d; [constructor|].
  cbn [monitorPods].
  pose proof (chain_updatePodStatuses c t d) as H1.
  destruct (updatePodStatuses clock Unmarshal c t d) as [[t1 d1] evs1].
  specialize (IH t1 d1).
  destruct (monitorPods clock Unmarshal rest t1 d1) as [[t2 d2] evs2].
  simpl in *. rewrite unlocked_app. by eapply chain_app.
Qed.
End Timestamps.

(** C9. With a clock that does not run backwards, the stores the readers
    can see in a run of the monitor, from its start, never show a
    [LastCheck] of an identity that is earlier than one they showed for it
    before: every upsert stamps a time no earlier than the one it
    replaces, within a cycle and across cycles. *)
Theorem LastCheck_monotone clock Unmarshal cycles :
  (∀ i j, (i ≤ j)%nat → (clock i ≤ clock j)%Z) →
  let history :=
    pods NewDashboard :: unlocked (monitorPods clock Unmarshal cycles 0 NewDashboard).2 in
  ∀ i j si sj name r r',
    (i ≤ j)%nat → history !! i = Some si → history !! j = Some sj →
    si !! name = Some r → sj !! name = Some r' →
    (LastCheck r ≤ LastCheck r')%Z.
Proof.
  intros Hclock history.
  eapply chain_monotone; [done|apply chain_monitorPods|].
  intros name r Hr. cbn [NewDashboard pods] in Hr. by rewrite lookup_empty in Hr.
Qed.

Lemma LastCheck_monotone_witness :
  let history :=
    pods NewDashboard
    :: unlocked (monitorPods Scenario.clock Scenario.Unmarshal
                   [Scenario.healthy; Scenario.unreachable; Scenario.first_times_out]
                   0 NewDashboard).2 in
  let first := (podStatusOf Scenario.Unmarshal (client_Get Scenario.healthy 0)
                  (Scenario.clock 0) Scenario.web_a).1 in
  let second := (podStatusOf Scenario.Unmarshal (client_Get Scenario.first_times_out 0)
                   (Scenario.clock 3) Scenario.web_a).1 in
  default ∅ (history !! 1%nat) !! "web-7f8c9d-abcde" = Some first ∧
  default ∅ (history !! 5%nat) !! "web-7f8c9d-abcde" = Some second ∧
  (LastCheck first ≤ LastCheck second)%Z.
Proof.
  intros history first second.
  assert (default ∅ (history !! 1%nat) !! "web-7f8c9d-abcde" = Some first) as H1
    by (vm_compute; reflexivity).
  assert (default ∅ (history !! 5%nat) !! "web-7f8c9d-abcde" = Some second) as H5
    by (vm_compute; reflexivity).
  split; [exact H1|]. split; [exact H5|].
  refine (LastCheck_monotone Scenario.clock Scenario.Unmarshal
            [Scenario.healthy; Scenario.unreachable; Scenario.first_times_out]
            _ 1%nat 5%nat _ _ "web-7f8c9d-abcde" first second _ _ _ H1 H5).
  - intros i j Hij. unfold Scenario.clock. lia.
  - lia.
  - vm_compute. reflexivity.
  - vm_compute. reflexivity.
Defined.

(** ** Action Forwarder: [handleProxy] *)

(** The inbound request: [r.Method] and the bytes of [r.Body]. *)
Record Request := {
  Method : string;
  RequestBody : string
}.

(** What was written to the [http.ResponseWriter]. *)
Record Response := {
  status : Z;
  body : string
}.

(** What the caller of a handler gets: the response the handler wrote, or,
    when the handler panics before it has written anything, no response
    at all (the server recovers, logs and closes the connection). *)
Inductive Written :=
| Replied (resp : Response)
| Panicked (msg : string).

Definition replied (w : Written) : option Response :=
  match w with
  | Replied resp => Some resp
  | Panicked _ => None
  end.

(** The fields of the anonymous struct [req] of [handleProxy]. *)
Record ProxyRequest := {
  URL : string;
  ProxyMethod : string
}.

Definition StatusBadRequest : Z := 400.
Definition StatusMethodNotAllowed : Z := 405.
Definition StatusInternalServerError : Z := 500.

(** [http.Error(w, msg, code)]: the status, and the message on a line. *)
Definition http_Error (msg : string) (code : Z) : Response :=
  {| status := code; body := msg +:+ String "010"%char EmptyString |}.

(** [w.WriteHeader(code)] of net/http panics unless [100 <= code <= 999]. *)
Definition checkWriteHeaderCode (code : Z) : bool :=
  (100 <=? code)%Z && (code <=? 999)%Z.

(** A 1xx code other than 101 is an interim header: it leaves the header of
    the response open, and the first [Write] or the end of the handler
    sends 200.  ([client.Do] does not return such a response.) *)
Definition interim (code : Z) : bool :=
  (100 <=? code)%Z && (code <=? 199)%Z && negb (code =? 101)%Z.

(** [bodyAllowedForStatus] of net/http: [Write] refuses the bytes of a 1xx,
    204 or 304 response. *)
Definition bodyAllowedForStatus (code : Z) : bool :=
  negb ((100 <=? code)%Z && (code <=? 199)%Z)
  && negb (code =? 204)%Z && negb (code =? 304)%Z.

(** Lines 759-760:

      w.WriteHeader(resp.StatusCode)
      io.Copy(w, resp.Body)

    [io.Copy] writes the bytes the body delivers; the error it returns, a
    read that failed or a write that was refused, is dropped. *)
Definition relay (resp : HttpResponse) : Written :=
  let code := StatusCode resp in
  if negb (checkWriteHeaderCode code)
  then Panicked ("invalid WriteHeader code " +:+ pretty code)
  else
    let final := if interim code then StatusOK else code in
    Replied {| status := final;
               body := if bodyAllowedForStatus final
                       then data (RespBody resp) else "" |}.

Section ActionForwarder.
(** [json.NewDecoder(r.Body).Decode(&req)]. *)
Variable Decode : string → decoded ProxyRequest.
(** [http.NewRequest(method, url, nil)]: the request, or an error. *)
Variable NewRequest : string → string → decoded HttpRequest.

(** [handleProxy], lines 726-761.  [client_Do] is what
    [client.Do(proxyReq)] returns.  The dashboard is the receiver, which
    the handler does not touch. *)
Definition handleProxy (client_Do : HttpRequest → Outcome) (d : Dashboard) (r : Request)
  : Dashboard * Written * list Event :=
  if negb (String.eqb (Method r) "POST")
  then (d, Replied (http_Error "Method not allowed" StatusMethodNotAllowed), [])
  else
    match Decode (RequestBody r) with
    | DecodeError _ =>
        (d, Replied (http_Error "Invalid request body" StatusBadRequest), [])
    | Decoded req =>
        match NewRequest (ProxyMethod req) (URL req) with
        | DecodeError _ =>
            (d, Replied (http_Error "Failed to create request"
                           StatusInternalServerError), [])
        | Decoded proxyReq =>
            match client_Do proxyReq with
            | Failed cause =>
                (d, Replied (http_Error ("Failed to call pod API: " +:+ cause)
                               StatusInternalServerError),
                 [EvRequest proxyReq])
            | Responded resp => (d, relay resp, [EvRequest proxyReq])
            end
        end
    end.

End ActionForwarder.




(** C10. A POST whose body decodes but from whose url and method no
    request can be built is answered with 500 "Failed to create request";
    the HTTP client is not called and the dashboard is left as it was. *)
Theorem handleProxy_bad_target Decode NewRequest client_Do d r req cause :
  Method r = "POST" →
  Decode (RequestBody r) = Decoded req →
  NewRequest (ProxyMethod req) (URL req) = DecodeError cause →
  let res := handleProxy Decode NewRequest client_Do d r in
  res.1.2 = Replied (http_Error "Failed to create request" StatusInternalServerError) ∧
  status <$> replied res.1.2 = Some 500%Z ∧
  res.2 = [] ∧
  res.1.1 = d.
Proof.
  intros HP HD HN. unfold handleProxy. rewrite HP, HD, HN. by repeat split.
Qed.

Lemma handleProxy_bad_target_witness :
  let Decode := λ _ : string, Decoded {| URL := "http://10.0.0.5:8080/"; ProxyMethod := "BAD METHOD" |} in
  let NewRequest := λ m u : string,
    if String.eqb m "BAD METHOD" then DecodeError "net/http: invalid method"
    else Decoded {| req_Method := m; req_URL := u |} in
  let client_Do := λ _ : HttpRequest, Failed "unreachable" in
  let r := {| Method := "POST"; RequestBody := "{}" |} in
  (handleProxy Decode NewRequest client_Do Scenario.before r).1.2
  = Replied {| status := 500; body := "Failed to create request" +:+ String "010"%char "" |}.
Proof.
  intros Decode NewRequest client_Do r.
  exact (proj1 (handleProxy_bad_target Decode NewRequest client_Do Scenario.before r
                  _ _ eq_refl eq_refl eq_refl)).
Defined.

(** * Further properties of the code *)

(** ** The group tag of pods of one rollout *)

Lemma Split_app_sep sep p s :
  Strings.Split (p +:+ String sep s) sep
  = (Strings.Split p sep ++ Strings.Split s sep)%list.
Proof.
  induction p as [|c p IH]; simpl.
  - by rewrite Ascii.eqb_refl.
  - rewrite IH. destruct (Ascii.eqb c sep); [done|].
    pose proof (Split_nonempty sep p) as Hne.
    by destruct (Strings.Split p sep).
Qed.

Lemma second_to_last_snoc (l : list string) (a : string) :
  second_to_last (l ++ [a]) = default "" (last l).
Proof.
  unfold second_to_last. rewrite rev_app_distr. simpl.
  destruct l as [|x l] using rev_ind; [done|].
  by rewrite rev_app_distr, last_snoc.
Qed.

(** X1.  Lines 137-143.  The tag of a name that ends in "-" and a dash-free
    suffix is the last segment of what comes before: it does not depend on
    the suffix, so the pods of one ReplicaSet, whose names differ in the
    suffix only, get the same tag.  A tag never contains a dash. *)
Theorem replicaSetID_ignores_suffix prefix a b :
  Strings.free_of dash a = true →
  Strings.free_of dash b = true →
  replicaSetID (prefix +:+ String dash a) = replicaSetID (prefix +:+ String dash b) ∧
  replicaSetID (prefix +:+ String dash a) = default "" (last (Strings.Split prefix dash)) ∧
  ∀ name, Strings.free_of dash (replicaSetID name) = true.
Proof.
  intros Ha Hb.
  assert (∀ s, Strings.free_of dash s = true →
            replicaSetID (prefix +:+ String dash s)
            = default "" (last (Strings.Split prefix dash))) as Htag.
  { intros s Hs. unfold replicaSetID.
    rewrite second_to_last_lookup, Split_app_sep, (Split_free_string _ _ Hs).
    apply second_to_last_snoc. }
  split; [by rewrite !Htag|]. split; [by apply Htag|].
  intros name. unfold replicaSetID. rewrite second_to_last_lookup.
  pose proof (Split_free dash name) as Hfree. unfold second_to_last.
  rewrite forallb_forall in Hfree.
  destruct (rev (Strings.Split name dash)) as [|x [|y l]] eqn:E; [done..|].
  apply Hfree. apply in_rev. rewrite E. right. by left.
Qed.

Lemma replicaSetID_ignores_suffix_witness :
  replicaSetID "probe-demo-5d4f8-x2x9z" = replicaSetID "probe-demo-5d4f8-q7w1k".
Proof.
  exact (proj1 (replicaSetID_ignores_suffix "probe-demo-5d4f8" "x2x9z" "q7w1k"
                  eq_refl eq_refl)).
Defined.

(** ** The prune loop *)

(** X2.  Lines 170-176.  Go does not fix the order in which [range] visits the
    keys of [d.pods].  In whatever order they are visited, the loop leaves
    the entries whose key is in [currentPods] and no other: the result does
    not depend on the order. *)
Theorem prune_any_order currentPods (store : gmap string PodStatusInfo) keys :
  keys ≡ₚ (map_to_list store).*1 →
  foldl (λ m name, if negb (index currentPods name) then delete name m else m) store keys
  = filter (λ kv, index currentPods kv.1 = true) store ∧
  prune currentPods store = filter (λ kv, index currentPods kv.1 = true) store.
Proof.
  intros Hperm.
  assert (∀ l, l ≡ₚ (map_to_list store).*1 →
            foldl (λ m name, if negb (index currentPods name) then delete name m else m)
                  store l
            = filter (λ kv, index currentPods kv.1 = true) store) as H.
  { intros l Hl. apply map_eq. intros name. rewrite lookup_foldl_delete.
    destruct (index currentPods name) eqn:Hc; simpl.
    - destruct (store !! name) as [r|] eqn:E.
      + symmetry. by apply map_lookup_filter_Some.
      + symmetry. apply map_lookup_filter_None. left. done.
    - case_bool_decide as Hin.
      + symmetry. apply map_lookup_filter_None. right. intros r _. simpl. congruence.
      + destruct (store !! name) as [r|] eqn:E.
        * exfalso. apply Hin. rewrite Hl. apply list_elem_of_fmap. exists (name, r).
          split; [done|]. by apply elem_of_map_to_list.
        * symmetry. apply map_lookup_filter_None. by left. }
  split; [by apply H|]. by apply H.
Qed.

Lemma prune_any_order_witness :
  foldl (λ m name, if negb (index {[ "web-7f8c9d-abcde" := true ]} name)
                   then delete name m else m)
        (torn : gmap string PodStatusInfo)
        (reverse (map_to_list torn).*1)
  = filter (λ kv, index {[ "web-7f8c9d-abcde" := true ]} kv.1 = true) torn.
Proof.
  refine (proj1 (prune_any_order {[ "web-7f8c9d-abcde" := true ]} torn _ _)).
  apply reverse_Permutation.
Defined.

(** ** What one cycle leaves in the store *)

Lemma lookup_upserts_last rs : ∀ store j r,
  rs !! j = Some r →
  (∀ k r', (j < k)%nat → rs !! k = Some r' → Name r' ≠ Name r) →
  upserts store rs !! Name r = Some r.
Proof.
  induction rs as [|r0 rs IH]; intros store j r Hj Hlast; [by destruct j|].
  destruct j as [|j]; simpl.
  - injection Hj as ->. rewrite lookup_upserts_other.
    + unfold upsert. by rewrite lookup_insert_eq.
    + intros (r' & Hn & [k Hk]%list_elem_of_lookup)%list_elem_of_fmap.
      apply (Hlast (S k) r'); [lia|done|done].
  - apply (IH _ j); [done|]. intros k r' Hk. apply (Hlast (S k) r'). lia.
Qed.

Lemma lookup_upserts_forgets rs : ∀ store1 store2 name,
  name ∈ Name <$> rs → upserts store1 rs !! name = upserts store2 rs !! name.
Proof.
  induction rs as [|r rs IH]; intros store1 store2 name; [by intros ?%elem_of_nil|].
  intros Hin. simpl. destruct (decide (name ∈ Name <$> rs)) as [Hin'|Hnot].
  - by apply IH.
  - rewrite !lookup_upserts_other by done.
    rewrite fmap_cons, elem_of_cons in Hin. destruct Hin as [->|?]; [|done].
    unfold upsert. by rewrite !lookup_insert_eq.
Qed.

Lemma Error_string_nonempty e : Error_string e ≠ "".
Proof. by destruct e. Qed.

Lemma podStatusOf_queried Unmarshal get now pod :
  queried pod = true →
  let r := (podStatusOf Unmarshal get now pod).1 in
  (is_Some (Info r) ∧ Error r = "") ∨
  (Info r = None ∧ ∃ e, Error r = Error_string e).
Proof.
  intros Hq. unfold podStatusOf. rewrite Hq.
  pose proof (getPodInfo_one_of Unmarshal get (pod_PodIP pod)) as H.
  destruct (getPodInfo _ _ _) as [[[info|] [e|]] evs]; simpl in *; try done.
  - left. eauto.
  - right. eauto.
Qed.

(** X3.  Lines 132-176.  The store a cycle leaves does not depend on the store
    it started from: every entry that survives the prune was written in
    this cycle.  Nor do the requests it sends or the number of clock
    readings it takes. *)
Theorem updatePodStatuses_forgets clock Unmarshal c t d d' Items :
  Pods_List c = ListOk Items →
  (updatePodStatuses clock Unmarshal c t d).1
  = (updatePodStatuses clock Unmarshal c t d').1 ∧
  requests (updatePodStatuses clock Unmarshal c t d).2
  = requests (updatePodStatuses clock Unmarshal c t d').2.
Proof.
  intros HL. split.
  - assert (pods (updatePodStatuses clock Unmarshal c t d).1.2
            = pods (updatePodStatuses clock Unmarshal c t d').1.2) as Hp.
    { apply map_eq. intros name.
      rewrite !(lookup_updatePodStatuses _ _ _ _ _ _ _ HL).
      case_bool_decide as Hin; [|done].
      apply lookup_upserts_forgets. by rewrite records_Name. }
    rewrite !(updatePodStatuses_ok _ _ _ _ _ _ HL) in *. cbn [fst snd pods] in *.
    by rewrite Hp.
  - by rewrite !(updatePodStatuses_requests _ _ _ _ _ _ HL).
Qed.

Lemma updatePodStatuses_forgets_witness :
  (updatePodStatuses Scenario.clock Scenario.Unmarshal Scenario.healthy 0 Scenario.before).1
  = (updatePodStatuses Scenario.clock Scenario.Unmarshal Scenario.healthy 0 NewDashboard).1.
Proof.
  exact (proj1 (updatePodStatuses_forgets Scenario.clock Scenario.Unmarshal
                  Scenario.healthy 0 Scenario.before NewDashboard _ eq_refl)).
Defined.

(** X4.  Lines 134-167.  [Pods("")] lists every namespace, so two pods of the
    list can have the same name.  The entry of a name is then the record of
    the last pod of the list with that name: built from that pod's
    descriptor, stamped with the clock reading of its iteration, with the
    outcome of its own fetch. *)
Theorem last_of_a_name_wins clock Unmarshal c t d Items j pod :
  Pods_List c = ListOk Items →
  Items !! j = Some pod →
  (∀ k pod', (j < k)%nat → Items !! k = Some pod' → pod_Name pod' ≠ pod_Name pod) →
  pods (updatePodStatuses clock Unmarshal c t d).1.2 !! pod_Name pod
  = Some (podStatusOf Unmarshal (client_Get c j) (clock (t + j)) pod).1.
Proof.
  intros HL Hj Hlast. rewrite (lookup_updatePodStatuses _ _ _ _ _ _ _ HL).
  rewrite bool_decide_eq_true_2
    by (apply list_elem_of_fmap_2; by eapply list_elem_of_lookup_2).
  rewrite <- (podStatusOf_Name Unmarshal (client_Get c j) (clock (t + j)) pod).
  apply (lookup_upserts_last _ _ j).
  - by rewrite records_lookup, Hj.
  - intros k r' Hk. rewrite records_lookup.
    destruct (Items !! k) as [pod'|] eqn:Hk'; [|done].
    intros [= <-]. rewrite !podStatusOf_Name. by eapply Hlast.
Qed.

Definition same_name (ns : string) : Pod :=
  {| pod_Name := "web-7f8c9d-abcde"; pod_PodIP := ""; pod_NodeName := ns;
     pod_Phase := "Pending" |}.

Lemma last_of_a_name_wins_witness :
  let c := {| Pods_List := ListOk [same_name "node-1"; Scenario.web_c; same_name "node-2"];
              client_Get := λ _ _, Responded Scenario.answers |} in
  Node <$> pods (updatePodStatuses Scenario.clock Scenario.Unmarshal c 0
                   Scenario.before).1.2 !! "web-7f8c9d-abcde"
  = Some "node-2".
Proof.
  intros c.
  assert (∀ k pod', (2 < k)%nat →
            [same_name "node-1"; Scenario.web_c; same_name "node-2"] !! k = Some pod' →
            pod_Name pod' ≠ pod_Name (same_name "node-2")) as Hlast.
  { intros [|[|[|k]]] pod' Hk Hpod; [lia|lia|lia|done]. }
  pose proof (last_of_a_name_wins Scenario.clock Scenario.Unmarshal c 0 Scenario.before
                _ 2 (same_name "node-2") eq_refl eq_refl Hlast) as H.
  change (pod_Name (same_name "node-2")) with "web-7f8c9d-abcde" in H.
  rewrite H. reflexivity.
Defined.

(** X5.  Lines 154-162.  The entry of a pod that was "Running" with an address
    carries a [PodInfo] and no error, or no [PodInfo] and the text of one
    of the errors of [getPodInfo], which is never empty: a failed fetch
    always shows. *)
Theorem queried_pod_shows_outcome clock Unmarshal c t d Items name r :
  Pods_List c = ListOk Items →
  pods (updatePodStatuses clock Unmarshal c t d).1.2 !! name = Some r →
  Status r = "Running" → IP r ≠ "" →
  (is_Some (Info r) ∧ Error r = "") ∨
  (Info r = None ∧ Error r ≠ "" ∧ ∃ e, Error r = Error_string e).
Proof.
  intros HL Hr HS HI.
  apply (updatePodStatuses_fresh _ _ _ _ _ _ _ _ HL) in Hr as [Hr _].
  apply records_elem in Hr as (k & pod & _ & ->).
  destruct (podStatusOf_copied Unmarshal (client_Get c (0 + k)) (clock (t + k)) pod)
    as (_ & HIP & _ & HSt & _).
  rewrite HIP in HI. rewrite HSt in HS.
  destruct (podStatusOf_queried Unmarshal (client_Get c (0 + k)) (clock (t + k)) pod)
    as [?|[HN [e He]]]; [by apply queried_true|by left|].
  right. split; [done|]. split; [|by eauto].
  rewrite He. apply Error_string_nonempty.
Qed.

Lemma queried_pod_shows_outcome_witness :
  ∃ r, pods (updatePodStatuses Scenario.clock Scenario.Unmarshal
               Scenario.first_times_out 0 Scenario.before).1.2 !! "web-7f8c9d-abcde"
       = Some r ∧
       ((is_Some (Info r) ∧ Error r = "") ∨
        (Info r = None ∧ Error r ≠ "" ∧ ∃ e, Error r = Error_string e)).
Proof.
  eexists. split; [vm_compute; reflexivity|].
  eapply (queried_pod_shows_outcome Scenario.clock Scenario.Unmarshal
            Scenario.first_times_out 0 Scenario.before _ "web-7f8c9d-abcde" _ eq_refl).
  - vm_compute. reflexivity.
  - reflexivity.
  - discriminate.
Defined.

(** ** Runs of the monitor *)

(** Discovery fails in this cycle. *)
Definition discovery_fails (c : Cycle) : Prop :=
  ∃ cause, Pods_List c = ListErr cause.

(** The clock readings a sequence of cycles takes: one for each pod of each
    successful discovery. *)
Definition readings (cycles : list Cycle) : nat :=
  sum_list ((λ c, match Pods_List c with
                  | ListErr _ => 0%nat
                  | ListOk Items => length Items
                  end) <$> cycles).

Section Runs.
Variable clock : nat → Time.
Variable Unmarshal : string → decoded PodInfo.

Lemma monitorPods_app cycles1 cycles2 t d :
  monitorPods clock Unmarshal (cycles1 ++ cycles2) t d
  = let '(t1, d1, evs1) := monitorPods clock Unmarshal cycles1 t d in
    let '(t2, d2, evs2) := monitorPods clock Unmarshal cycles2 t1 d1 in
    (t2, d2, (evs1 ++ evs2)%list).
Proof.
  revert t d. induction cycles1 as [|c cycles1 IH]; intros t d.
  - simpl. by destruct (monitorPods _ _ cycles2 t d) as [[t2 d2] evs2].
  - cbn [app monitorPods].
    destruct (updatePodStatuses clock Unmarshal c t d) as [[t1 d1] evs1].
    rewrite IH.
    destruct (monitorPods _ _ cycles1 t1 d1) as [[t2 d2] evs2].
    destruct (monitorPods _ _ cycles2 t2 d2) as [[t3 d3] evs3].
    by rewrite app_assoc.
Qed.

Lemma monitorPods_readings cycles t d :
  (monitorPods clock Unmarshal cycles t d).1.1 = (t + readings cycles)%nat.
Proof.
  revert t d. induction cycles as [|c cycles IH]; intros t d.
  - simpl. unfold readings. simpl. lia.
  - cbn [monitorPods]. specialize (IH (updatePodStatuses clock Unmarshal c t d).1.1
                                      (updatePodStatuses clock Unmarshal c t d).1.2).
    assert ((updatePodStatuses clock Unmarshal c t d).1.1
            = (t + match Pods_List c with
                   | ListErr _ => 0
                   | ListOk Items => length Items
                   end)%nat) as Ht.
    { unfold updatePodStatuses. destruct (Pods_List c) as [cause|Items]; simpl; [lia|].
      by destruct (rangeItems _ _ _ _ _ _ _ _) as [[? ?] ?]. }
    destruct (updatePodStatuses clock Unmarshal c t d) as [[t1 d1] evs1].
    simpl in Ht, IH. subst t1.
    destruct (monitorPods _ _ cycles _ d1) as [[t2 d2] evs2].
    simpl in *. subst t2. unfold readings. rewrite fmap_cons. simpl.
    fold (readings cycles). lia.
Qed.

Lemma monitorPods_failing cycles t d :
  Forall discovery_fails cycles →
  (monitorPods clock Unmarshal cycles t d).1 = (t, d) ∧
  unlocked (monitorPods clock Unmarshal cycles t d).2 = [] ∧
  requests (monitorPods clock Unmarshal cycles t d).2 = [].
Proof.
  induction 1 as [|c cycles [cause Hc] _ IH]; [done|].
  cbn [monitorPods]. unfold updatePodStatuses at 1 2 3. rewrite Hc.
  destruct (monitorPods _ _ cycles t d) as [[t2 d2] evs2]. simpl in *.
  destruct IH as (IH1 & IH2 & IH3). by rewrite IH1, IH2, IH3.
Qed.
End Runs.

(** X6.  Lines 108-130.  Cycles whose discovery fails are without effect: a run
    of failing cycles leaves the dashboard as it was, takes the write lock
    never and queries no pod.  After any run, the dashboard is what the
    last cycle with a successful discovery alone would have built from an
    empty dashboard; of the cycles before it only the number of their clock
    readings matters.  Its identities are those of that discovery. *)
Theorem store_is_last_successful_discovery clock Unmarshal cycles1 c cycles2 t d Items :
  Pods_List c = ListOk Items →
  Forall discovery_fails cycles2 →
  let res := monitorPods clock Unmarshal (cycles1 ++ c :: cycles2) t d in
  res.1.2 = (updatePodStatuses clock Unmarshal c (t + readings cycles1) NewDashboard).1.2 ∧
  dom (pods res.1.2) = (list_to_set (pod_Name <$> Items) : gset string) ∧
  (∀ t' d', (monitorPods clock Unmarshal cycles2 t' d').1 = (t', d') ∧
            unlocked (monitorPods clock Unmarshal cycles2 t' d').2 = [] ∧
            requests (monitorPods clock Unmarshal cycles2 t' d').2 = []).
Proof.
  intros HL Hfail res.
  assert (res.1.2
          = (updatePodStatuses clock Unmarshal c (t + readings cycles1) NewDashboard).1.2)
    as Hres.
  { unfold res. rewrite monitorPods_app.
    pose proof (monitorPods_readings clock Unmarshal cycles1 t d) as Ht.
    destruct (monitorPods _ _ cycles1 t d) as [[t1 d1] evs1]. simpl in Ht. subst t1.
    cbn [monitorPods].
    pose proof (proj1 (updatePodStatuses_forgets clock Unmarshal c
                         (t + readings cycles1) d1 NewDashboard _ HL)) as Hf.
    destruct (updatePodStatuses _ _ c _ d1) as [[t2 d2] evs2].
    pose proof (proj1 (monitorPods_failing clock Unmarshal cycles2 t2 d2 Hfail)) as Hm.
    destruct (monitorPods _ _ cycles2 t2 d2) as [[t3 d3] evs3].
    simpl in *. rewrite <- Hf. simpl. congruence. }
  split; [done|]. split.
  - rewrite Hres. by apply updatePodStatuses_dom.
  - intros t' d'. by apply monitorPods_failing.
Qed.

Lemma store_is_last_successful_discovery_witness :
  (monitorPods Scenario.clock Scenario.Unmarshal
     [Scenario.first_times_out; Scenario.healthy; Scenario.unreachable; Scenario.unreachable]
     0 Scenario.before).1.2
  = (updatePodStatuses Scenario.clock Scenario.Unmarshal Scenario.healthy 3 NewDashboard).1.2.
Proof.
  refine (proj1 (store_is_last_successful_discovery Scenario.clock Scenario.Unmarshal
                   [Scenario.first_times_out] Scenario.healthy
                   [Scenario.unreachable; Scenario.unreachable]
                   0 Scenario.before _ eq_refl _)).
  repeat constructor; by exists "connection refused".
Defined.

(** ** What readers see *)

Lemma seen_in_cycle clock Unmarshal c t d sys s :
  rtc step (cycle_start clock Unmarshal c t d) sys →
  s ∈ seen sys →
  s = pods (updatePodStatuses clock Unmarshal c t d).1.2 ∨
  ∃ k, s = upserts (pods d) (take k (built clock Unmarshal c t)).
Proof.
  intros Hrtc Hs.
  pose (L := pods d :: unlocked (updatePodStatuses clock Unmarshal c t d).2).
  destruct (rtc_step_within L _ _ Hrtc) as (_ & _ & Hseen).
  { simpl. split; [by left|]. split; [|by intros ? ?%elem_of_nil].
    intros x Hx. by right. }
  apply Hseen in Hs. apply elem_of_cons in Hs as [->|Hs].
  - right. exists 0%nat. by rewrite take_0.
  - by apply updatePodStatuses_unlocked_built.
Qed.

Lemma lookup_upserts_keeps store rs name :
  is_Some (store !! name) → is_Some (upserts store rs !! name).
Proof.
  revert store. induction rs as [|r rs IH]; intros store Hs; [done|].
  simpl. apply IH. unfold upsert.
  destruct (decide (Name r = name)) as [<-|Hne].
  - rewrite lookup_insert_eq. eauto.
  - by rewrite lookup_insert_ne.
Qed.

(** X7.  Lines 164-176 with 682-687.  While a cycle runs, a pod that was in the
    store and is discovered again is in every snapshot: entries do not
    flicker.  A snapshot holds no identity that was neither in the store
    nor discovered.  And until the prune a pod that is gone is shown with
    the record it had. *)
Theorem snapshots_during_a_cycle clock Unmarshal c t d Items sys s :
  Pods_List c = ListOk Items →
  rtc step (cycle_start clock Unmarshal c t d) sys →
  s ∈ seen sys →
  (∀ name, name ∈ pod_Name <$> Items → is_Some (pods d !! name) → is_Some (s !! name)) ∧
  (∀ name, is_Some (s !! name) →
     is_Some (pods d !! name) ∨ name ∈ pod_Name <$> Items) ∧
  (s = pods (updatePodStatuses clock Unmarshal c t d).1.2 ∨
   ∀ name, name ∉ pod_Name <$> Items → s !! name = pods d !! name).
Proof.
  intros HL Hrtc Hs.
  destruct (seen_in_cycle _ _ _ _ _ _ _ Hrtc Hs) as [->|[k ->]].
  - split; [|split; [|by left]].
    + intros name Hin _. apply elem_of_dom.
      rewrite (updatePodStatuses_dom _ _ _ _ _ _ HL). by apply elem_of_list_to_set.
    + intros name Hsome%elem_of_dom. right.
      rewrite (updatePodStatuses_dom _ _ _ _ _ _ HL) in Hsome.
      by apply elem_of_list_to_set in Hsome.
  - unfold built. rewrite HL.
    assert (∀ name, name ∈ Name <$> take k (records clock Unmarshal c 0 Items t) →
                    name ∈ pod_Name <$> Items) as Hsub.
    { intros name. rewrite <- (records_Name clock Unmarshal c 0 Items t), fmap_take.
      apply (subseteq_take k). }
    split; [|split].
    + intros name _ Hd. by apply lookup_upserts_keeps.
    + intros name [r Hr]. apply lookup_upserts_Some in Hr as [[Hin <-]|[_ Hr]].
      * right. apply Hsub. by apply list_elem_of_fmap_2.
      * left. eauto.
    + right. intros name Hnot. apply lookup_upserts_other. intros ?%Hsub. done.
Qed.

Lemma snapshots_during_a_cycle_witness :
  torn !! "web-5b6c7d-zzzzz" = pods Scenario.before !! "web-5b6c7d-zzzzz".
Proof.
  destruct (proj2 (proj2 (snapshots_during_a_cycle Scenario.clock Scenario.Unmarshal
                            Scenario.healthy 0 Scenario.before _ _ torn eq_refl
                            torn_seen ltac:(by left)))) as [E|H].
  - apply (f_equal (λ s, s !! "web-5b6c7d-zzzzz")) in E. vm_compute in E. discriminate.
  - apply H. vm_compute. by intros [?|[?|[?|?%elem_of_nil]%elem_of_cons]%elem_of_cons]%elem_of_cons.
Defined.

(** The monitor from the start of the process, no snapshot taken yet. *)
Definition monitor_start clock Unmarshal (cycles : list Cycle) : System :=
  {| shared := pods NewDashboard;
     pending := (monitorPods clock Unmarshal cycles 0 NewDashboard).2;
     seen := [] |}.

(** Every entry is filed under the name of its record, carries the tag of
    that name, and is well formed. *)
Definition sound (store : gmap string PodStatusInfo) : Prop :=
  ∀ name r, store !! name = Some r →
    Name r = name ∧ ReplicaSetID r = replicaSetID name ∧ well_formed r.

Section Sound.
Variable clock : nat → Time.
Variable Unmarshal : string → decoded PodInfo.

Lemma sound_upsert get now pod store :
  sound store → sound (upsert (podStatusOf Unmarshal get now pod).1 store).
Proof.
  intros Hs name r. unfold upsert.
  destruct (decide (Name (podStatusOf Unmarshal get now pod).1 = name)) as [<-|Hne].
  - rewrite lookup_insert_eq. intros [= <-]. split; [done|]. split.
    + destruct (podStatusOf_copied Unmarshal get now pod) as (-> & _ & _ & _ & _ & ->).
      done.
    + apply podStatusOf_well_formed.
  - rewrite lookup_insert_ne by done. apply Hs.
Qed.

Lemma sound_scan c i Items t store :
  sound store →
  Forall sound (scan store (records clock Unmarshal c i Items t)) ∧
  sound (upserts store (records clock Unmarshal c i Items t)).
Proof.
  revert i t store. induction Items as [|pod rest IH]; intros i t store Hs; [done|].
  cbn [records scan upserts foldl].
  destruct (IH (S i) (S t) _ (sound_upsert (client_Get c i) (clock t) pod _ Hs)) as [H1 H2].
  split; [|done]. constructor; [|done]. by apply sound_upsert.
Qed.

Lemma sound_prune currentPods store : sound store → sound (prune currentPods store).
Proof.
  intros Hs name r. rewrite lookup_prune. destruct (index _ _); [apply Hs|done].
Qed.

Lemma sound_updatePodStatuses c t d :
  sound (pods d) →
  Forall sound (unlocked (updatePodStatuses clock Unmarshal c t d).2) ∧
  sound (pods (updatePodStatuses clock Unmarshal c t d).1.2).
Proof.
  intros Hs. destruct (Pods_List c) as [cause|Items] eqn:HL.
  - unfold updatePodStatuses. rewrite HL. simpl. by split.
  - rewrite (updatePodStatuses_unlocked _ _ _ _ _ _ HL).
    rewrite (updatePodStatuses_ok _ _ _ _ _ _ HL). cbn [fst snd pods].
    destruct (sound_scan c 0 Items t _ Hs) as [H1 H2].
    split; [|by apply sound_prune].
    apply Forall_app. split; [done|]. constructor; [|done]. by apply sound_prune.
Qed.

Lemma sound_monitorPods cycles t d :
  sound (pods d) →
  Forall sound (unlocked (monitorPods clock Unmarshal cycles t d).2) ∧
  sound (pods (monitorPods clock Unmarshal cycles t d).1.2).
Proof.
  revert t d. induction cycles as [|c cycles IH]; intros t d Hs; [done|].
  cbn [monitorPods].
  destruct (sound_updatePodStatuses c t d Hs) as [H1 H2].
  destruct (updatePodStatuses clock Unmarshal c t d) as [[t1 d1] evs1].
  destruct (IH t1 d1 H2) as [H3 H4].
  destruct (monitorPods clock Unmarshal cycles t1 d1) as [[t2 d2] evs2].
  simpl in *. split; [|done]. rewrite unlocked_app. by apply Forall_app.
Qed.
End Sound.

(** X8.  Lines 108-177 with 682-687 and 718-724.  Whatever the cluster and the
    pods answer and whenever the readers read, every entry of every
    snapshot is filed under the name of its own record, carries the tag
    derived from that name, never carries both a [PodInfo] and an error,
    and carries neither unless its pod was "Running" with an address. *)
Theorem snapshots_are_sound clock Unmarshal cycles sys s name r :
  rtc step (monitor_start clock Unmarshal cycles) sys →
  s ∈ seen sys →
  s !! name = Some r →
  Name r = name ∧ ReplicaSetID r = replicaSetID name ∧
  ¬ (Info r ≠ None ∧ Error r ≠ "") ∧
  (Status r ≠ "Running" ∨ IP r = "" → Info r = None ∧ Error r = "").
Proof.
  intros Hrtc Hs Hr.
  pose (L := pods NewDashboard
             :: unlocked (monitorPods clock Unmarshal cycles 0 NewDashboard).2).
  destruct (rtc_step_within L _ _ Hrtc) as (_ & _ & Hseen).
  { simpl. split; [by left|]. split; [|by intros ? ?%elem_of_nil].
    intros x Hx. by right. }
  assert (sound s) as Hsound.
  { apply Hseen in Hs. apply elem_of_cons in Hs as [->|Hs].
    - intros ? ? H. cbn [NewDashboard pods] in H. by rewrite lookup_empty in H.
    - destruct (sound_monitorPods clock Unmarshal cycles 0 NewDashboard) as [H _].
      { intros ? ? H. cbn [NewDashboard pods] in H. by rewrite lookup_empty in H. }
      rewrite Forall_forall in H. by apply H. }
  destruct (Hsound _ _ Hr) as (HN & HT & Hex & Hnot).
  split; [done|]. split; [done|]. split; [|done].
  intros [? ?]. by destruct Hex.
Qed.

Lemma snapshots_are_sound_witness :
  let r := (podStatusOf Scenario.Unmarshal (λ _, Responded Scenario.answers)
              (Scenario.clock 0) Scenario.web_a).1 in
  Name r = "web-7f8c9d-abcde" ∧ ReplicaSetID r = replicaSetID "web-7f8c9d-abcde" ∧
  ¬ (Info r ≠ None ∧ Error r ≠ "") ∧
  (Status r ≠ "Running" ∨ IP r = "" → Info r = None ∧ Error r = "").
Proof.
  intros r.
  apply (snapshots_are_sound Scenario.clock Scenario.Unmarshal [Scenario.healthy]
           {| shared := upsert r ∅;
              pending := drop 2 (monitorPods Scenario.clock Scenario.Unmarshal
                                   [Scenario.healthy] 0 NewDashboard).2;
              seen := [upsert r ∅] |}
           (upsert r ∅)).
  - exact (reader_after_unlock _ [EvRequest (info_url Scenario.web_a)] (upsert r ∅) _ []
             eq_refl).
  - by left.
  - vm_compute. reflexivity.
Defined.

(** ** Snapshot Reader: the order of [handleIndex] *)

(** Lines 689-695, the [less] of [sort.Slice]: by [ReplicaSetID], then by
    [Name].  Go compares strings byte by byte. *)
Definition less (a b : PodStatusInfo) : bool :=
  if String.eqb (ReplicaSetID a) (ReplicaSetID b)
  then String.ltb (Name a) (Name b)
  else String.ltb (ReplicaSetID a) (ReplicaSetID b).

(** What [sort.Slice(pods, less)] can leave in [pods]: a rearrangement in
    which no element is less than one before it.  The sort is not stable:
    elements that are not less than each other come in any order. *)
Definition sort_Slice (l out : list PodStatusInfo) : Prop :=
  out ≡ₚ l ∧ StronglySorted (λ a b, less b a = false) out.

(** Lines 682-695: the slice [handleIndex] hands to the template, the
    values of [d.pods] in the order [range] yields them, sorted. *)
Definition handleIndex_Pods (d : Dashboard) (out : list PodStatusInfo) : Prop :=
  ∃ ranged, ranged ≡ₚ (map_to_list (pods d)).*2 ∧ sort_Slice ranged out.

(** The three-way comparison of the keys [less] compares. *)
Definition key_compare (a b : PodStatusInfo) : comparison :=
  match String.compare (ReplicaSetID a) (ReplicaSetID b) with
  | Eq => String.compare (Name a) (Name b)
  | c => c
  end.

Lemma compare_refl s : String.compare s s = Eq.
Proof. by apply OrderedTypeEx.String_as_OT.cmp_eq. Qed.

Lemma compare_Lt_trans a b c :
  String.compare a b = Lt → String.compare b c = Lt → String.compare a c = Lt.
Proof.
  intros H1%OrderedTypeEx.String_as_OT.cmp_lt H2%OrderedTypeEx.String_as_OT.cmp_lt.
  apply OrderedTypeEx.String_as_OT.cmp_lt.
  by eapply OrderedTypeEx.String_as_OT.lt_trans.
Qed.

Lemma less_key_compare a b : less a b = true ↔ key_compare a b = Lt.
Proof.
  unfold less, key_compare, String.ltb.
  destruct (String.eqb_spec (ReplicaSetID a) (ReplicaSetID b)) as [->|Hne].
  - rewrite compare_refl. by destruct (String.compare _ _).
  - destruct (String.compare (ReplicaSetID a) (ReplicaSetID b)) eqn:E; try done.
    by apply String.compare_eq_iff in E.
Qed.

Lemma key_compare_antisym a b : key_compare a b = CompOpp (key_compare b a).
Proof.
  unfold key_compare.
  rewrite (String.compare_antisym (ReplicaSetID a)), (String.compare_antisym (Name a)).
  by destruct (String.compare (ReplicaSetID b) _).
Qed.

Lemma key_compare_Eq a b :
  key_compare a b = Eq → ReplicaSetID a = ReplicaSetID b ∧ Name a = Name b.
Proof.
  unfold key_compare.
  destruct (String.compare (ReplicaSetID a) _) eqn:E; try done.
  intros H. split; by apply String.compare_eq_iff.
Qed.

Lemma key_compare_Lt_trans a b c :
  key_compare a b = Lt → key_compare b c = Lt → key_compare a c = Lt.
Proof.
  unfold key_compare.
  destruct (String.compare (ReplicaSetID a) (ReplicaSetID b)) eqn:E1; try done;
    destruct (String.compare (ReplicaSetID b) (ReplicaSetID c)) eqn:E2; try done;
    intros H1 H2.
  - apply String.compare_eq_iff in E1, E2. rewrite E1, E2, compare_refl.
    by eapply compare_Lt_trans.
  - apply String.compare_eq_iff in E1. by rewrite E1, E2.
  - apply String.compare_eq_iff in E2. by rewrite <- E2, E1.
  - by rewrite (compare_Lt_trans _ _ _ E1 E2).
Qed.

Lemma less_false a b : less b a = false ↔ key_compare a b ≠ Gt.
Proof.
  rewrite key_compare_antisym.
  pose proof (less_key_compare b a) as H.
  destruct (less b a), (key_compare b a); simpl; intuition congruence.
Qed.

Lemma not_less_total a b : less b a = false ∨ less a b = false.
Proof.
  rewrite !less_false, (key_compare_antisym b a).
  destruct (key_compare a b); simpl; intuition congruence.
Qed.

Lemma not_less_trans a b c :
  less b a = false → less c b = false → less c a = false.
Proof.
  rewrite !less_false. intros H1 H2 H3.
  destruct (key_compare a b) eqn:E1; [| |done].
  - apply key_compare_Eq in E1 as [Et En].
    apply H2. unfold key_compare in *. by rewrite <- Et, <- En.
  - apply H2. rewrite key_compare_antisym in H3 |- *.
    destruct (key_compare c a) eqn:E3; try done.
    by rewrite (key_compare_Lt_trans _ _ _ E3 E1).
Qed.

Lemma keyed_values (m : gmap string PodStatusInfo) x :
  map_Forall (λ name r, Name r = name) m →
  x ∈ (map_to_list m).*2 → m !! Name x = Some x.
Proof.
  intros Hk ([name r] & -> & Hin%elem_of_map_to_list)%list_elem_of_fmap. simpl.
  by rewrite (Hk _ _ Hin).
Qed.

Lemma keyed_values_NoDup (m : gmap string PodStatusInfo) :
  map_Forall (λ name r, Name r = name) m → NoDup (map_to_list m).*2.
Proof.
  intros Hk. apply NoDup_fmap_2_strong; [|apply NoDup_map_to_list].
  intros [n1 r1] [n2 r2] H1%elem_of_map_to_list H2%elem_of_map_to_list. simpl.
  intros <-. f_equal. by rewrite <- (Hk _ _ H1), <- (Hk _ _ H2).
Qed.

Lemma StronglySorted_strict (l : list PodStatusInfo) :
  StronglySorted (λ a b, less b a = false) l →
  NoDup l →
  (∀ x y, x ∈ l → y ∈ l → key_compare x y = Eq → x = y) →
  StronglySorted (λ a b, less a b = true) l.
Proof.
  induction 1 as [|x l Hl IH Hx]; intros Hnd Heq; [constructor|].
  apply NoDup_cons in Hnd as [Hnot Hnd].
  constructor.
  - apply IH; [done|]. intros y z Hy Hz. apply Heq; by right.
  - rewrite Forall_forall in Hx |- *. intros y Hy.
    specialize (Hx y Hy). apply less_false in Hx. apply less_key_compare.
    destruct (key_compare x y) eqn:E; [|done|done].
    exfalso. apply Hnot. rewrite (Heq x y); [done|by left|by right|done].
Qed.

(** X9.  Lines 682-695.  Go yields the values of [d.pods] in an order that
    changes from one request to the next, and [sort.Slice] is not stable.
    In a store whose entries are filed under the name of their record, as
    the stores of the monitor are, the slice handed to the template is
    nevertheless determined by the store: there is one, every run of
    [handleIndex] on the same store gets the same, and it lists every
    record once, in strictly ascending order of tag and then name. *)
Theorem handleIndex_order d :
  map_Forall (λ name r, Name r = name) (pods d) →
  (∃ out, handleIndex_Pods d out) ∧
  ∀ out1 out2, handleIndex_Pods d out1 → handleIndex_Pods d out2 →
    out1 = out2 ∧
    out1 ≡ₚ (map_to_list (pods d)).*2 ∧
    StronglySorted (λ a b, less a b = true) out1.
Proof.
  intros Hk. split.
  - pose (dec := λ x y : PodStatusInfo, decide (less y x = false)).
    exists (@merge_sort _ (λ a b, less b a = false) dec (map_to_list (pods d)).*2).
    exists (map_to_list (pods d)).*2. split; [done|]. split.
    + apply (@merge_sort_Permutation _ _ dec).
    + apply (@StronglySorted_merge_sort _ _ dec).
      * intros x y z Hxy Hyz. by eapply not_less_trans.
      * intros x y. apply not_less_total.
  - intros out1 out2 (r1 & Hr1 & Hp1 & Hs1) (r2 & Hr2 & Hp2 & Hs2).
    assert (out1 ≡ₚ (map_to_list (pods d)).*2) as Hv1 by (by rewrite Hp1).
    assert (out2 ≡ₚ (map_to_list (pods d)).*2) as Hv2 by (by rewrite Hp2).
    assert (∀ x y, x ∈ (map_to_list (pods d)).*2 → y ∈ (map_to_list (pods d)).*2 →
                   key_compare x y = Eq → x = y) as Heq.
    { intros x y Hx%(keyed_values _ _ Hk) Hy%(keyed_values _ _ Hk) [_ Hn]%key_compare_Eq.
      rewrite Hn in Hx. congruence. }
    split; [|split; [done|]].
    + apply (StronglySorted_unique_strong (λ a b, less b a = false)); [|done|done|].
      * intros x y Hx Hy Hxy Hyx. rewrite Hv1 in Hx. rewrite Hv2 in Hy.
        apply Heq; [done|done|].
        apply less_false in Hxy. apply less_false in Hyx.
        rewrite key_compare_antisym in Hyx.
        by destruct (key_compare x y).
      * by rewrite Hv1, Hv2.
    + apply StronglySorted_strict; [done| |].
      * rewrite Hv1. by apply keyed_values_NoDup.
      * intros x y Hx Hy. rewrite Hv1 in Hx, Hy. by apply Heq.
Qed.

Lemma handleIndex_order_witness :
  let d := (updatePodStatuses Scenario.clock Scenario.Unmarshal
              Scenario.healthy 0 NewDashboard).1.2 in
  ∃ out, handleIndex_Pods d out.
Proof.
  intros d. refine (proj1 (handleIndex_order d _)).
  intros name r Hr.
  refine (proj1 (proj2 (sound_updatePodStatuses Scenario.clock Scenario.Unmarshal
                          Scenario.healthy 0 NewDashboard _) name r Hr)).
  intros ? ? H. cbn [NewDashboard pods] in H. by rewrite lookup_empty in H.
Defined.

Lemma StronglySorted_lookup {A} (R : relation A) (l : list A) i j x y :
  StronglySorted R l → (i < j)%nat → l !! i = Some x → l !! j = Some y → R x y.
Proof.
  intros Hs Hij Hi Hj. rewrite <- (take_drop j l) in Hs.
  apply (StronglySorted_app_1_elem_of _ _ _ _ _ Hs).
  - apply list_elem_of_lookup. exists i. by rewrite lookup_take_lt.
  - apply list_elem_of_lookup. exists 0%nat. by rewrite lookup_drop, Nat.add_0_r.
Qed.

Lemma not_less_tag a b :
  less b a = false → String.leb (ReplicaSetID a) (ReplicaSetID b) = true.
Proof.
  intros H%less_false. unfold key_compare, String.leb in *.
  by destruct (String.compare (ReplicaSetID a) (ReplicaSetID b)).
Qed.

(** X10.  Lines 682-695.  In the slice handed to the template the records of one
    tag are next to each other: between two records of the same tag there
    is no record of another.  This holds for every store and every order
    in which [range] and [sort.Slice] may leave equal keys. *)
Theorem handleIndex_groups_are_contiguous d out i j k x y z :
  handleIndex_Pods d out →
  (i < j < k)%nat →
  out !! i = Some x → out !! j = Some y → out !! k = Some z →
  ReplicaSetID x = ReplicaSetID z →
  ReplicaSetID y = ReplicaSetID x.
Proof.
  intros (ranged & _ & _ & Hs) [Hij Hjk] Hi Hj Hk Hxz.
  pose proof (not_less_tag _ _ (StronglySorted_lookup _ _ _ _ _ _ Hs Hij Hi Hj)) as Hxy.
  pose proof (not_less_tag _ _ (StronglySorted_lookup _ _ _ _ _ _ Hs Hjk Hj Hk)) as Hyz.
  rewrite <- Hxz in Hyz. by apply String.leb_antisym.
Qed.

(** Four records of two tags, as the template gets them. *)
Definition pending_pod (name tag : string) : PodStatusInfo :=
  {| Name := name; IP := ""; Node := ""; Status := "Pending";
     Info := None; Error := ""; LastCheck := 0%Z; ReplicaSetID := tag |}.

Definition four_sorted : list PodStatusInfo :=
  [ pending_pod "web-5b6c7d-zzzzz" "5b6c7d"; pending_pod "web-7f8c9d-abcde" "7f8c9d";
    pending_pod "web-7f8c9d-fghij" "7f8c9d"; pending_pod "web-7f8c9d-klmno" "7f8c9d" ].

Lemma handleIndex_groups_are_contiguous_witness :
  ∃ y, four_sorted !! 2%nat = Some y ∧
       ReplicaSetID y = ReplicaSetID (pending_pod "web-7f8c9d-abcde" "7f8c9d").
Proof.
  pose (d := {| pods := list_to_map ((λ r, (Name r, r)) <$> four_sorted) |}).
  assert (handleIndex_Pods d four_sorted) as Hout.
  { exists four_sorted. split; [|split; [done|]].
    - symmetry. unfold d. cbn [pods]. rewrite map_to_list_to_map.
      + reflexivity.
      + apply (bool_decide_unpack _). vm_compute. reflexivity.
    - repeat constructor. }
  eexists. split; [reflexivity|].
  exact (handleIndex_groups_are_contiguous d four_sorted 1 2 3 _ _ _ Hout
           ltac:(lia) eq_refl eq_refl eq_refl eq_refl).
Defined.

(** ** When the forwarder calls the HTTP client *)

(** X11.  Lines 726-761.  [handleProxy] calls [client.Do] exactly when the
    method is POST, the body decodes and [http.NewRequest] accepts the
    decoded method and url; it then calls it once, with the request
    [http.NewRequest] built, whatever the target: the url is not compared
    with the pods of the store.  What the HTTP client does with the
    request, such as following a redirect or failing before anything is
    sent, is the client's.  In every case the dashboard is left as it was,
    no write lock is taken, and the response and the calls are the same
    for every dashboard. *)
Theorem handleProxy_calls_client Decode NewRequest client_Do d r :
  let res := handleProxy Decode NewRequest client_Do d r in
  (∀ proxyReq, requests res.2 = [proxyReq] ↔
     Method r = "POST" ∧
     ∃ req, Decode (RequestBody r) = Decoded req ∧
            NewRequest (ProxyMethod req) (URL req) = Decoded proxyReq) ∧
  (requests res.2 = [] ∨ ∃ proxyReq, requests res.2 = [proxyReq]) ∧
  res.1.1 = d ∧ unlocked res.2 = [] ∧
  (∀ d', (handleProxy Decode NewRequest client_Do d' r).1.2 = res.1.2 ∧
         (handleProxy Decode NewRequest client_Do d' r).2 = res.2).
Proof.
  intros res. unfold res, handleProxy.
  destruct (String.eqb_spec (Method r) "POST") as [HP|HP]; simpl.
  - destruct (Decode (RequestBody r)) as [req|cause] eqn:HD.
    + destruct (NewRequest (ProxyMethod req) (URL req)) as [proxyReq|cause] eqn:HN.
      * destruct (client_Do proxyReq) as [cause|resp]; simpl.
        -- split_and!; try done; [|right; eauto].
           intros p. split; [intros [= <-]; eauto|].
           intros (_ & req' & [= <-] & Hp). rewrite HN in Hp. by injection Hp as ->.
        -- split_and!; try done; [|right; eauto].
           intros p. split; [intros [= <-]; eauto|].
           intros (_ & req' & [= <-] & Hp). rewrite HN in Hp. by injection Hp as ->.
      * split_and!; try done; [|by left].
        intros p. split; [done|]. intros (_ & req' & [= <-] & Hp). by rewrite HN in Hp.
    + split_and!; try done; [|by left].
      intros p. split; [done|]. by intros (_ & req' & ? & _).
  - split_and!; try done; [|by left].
    intros p. split; [done|]. by intros [? _].
Qed.

Lemma handleProxy_calls_client_witness :
  let Decode := λ _ : string,
    Decoded {| URL := "http://example.org/"; ProxyMethod := "DELETE" |} in
  let NewRequest := λ m u : string, Decoded {| req_Method := m; req_URL := u |} in
  let client_Do := λ _ : HttpRequest, Failed "no route to host" in
  let r := {| Method := "POST"; RequestBody := "{}" |} in
  requests (handleProxy Decode NewRequest client_Do Scenario.before r).2
  = [{| req_Method := "DELETE"; req_URL := "http://example.org/" |}].
Proof.
  intros Decode NewRequest client_Do r.
  apply (proj1 (handleProxy_calls_client Decode NewRequest client_Do Scenario.before r)).
  split; [reflexivity|]. eexists. split; reflexivity.
Defined.

(** ** Readers over a whole run *)

(** The stores a run makes visible, the first being the one it starts
    from. *)
Definition history (start : gmap string PodStatusInfo) (evs : list Event)
  : list (gmap string PodStatusInfo) :=
  start :: unlocked evs.

(** Where a system stands in a history [H]: the shared map is [H !! n], the
    reconciler has the rest of [H] to write, and the snapshots were read
    from [H] at the places [idx], which do not go back. *)
Definition stands_at (H : list (gmap string PodStatusInfo)) (sys : System)
    (n : nat) (idx : list nat) : Prop :=
  H !! n = Some (shared sys) ∧
  unlocked (pending sys) = drop (S n) H ∧
  Forall2 (λ s i, H !! i = Some s) (seen sys) idx ∧
  StronglySorted le idx ∧
  Forall (λ i, i ≤ n)%nat idx.

Lemma step_stands_at H sys sys' n idx :
  step sys sys' → stands_at H sys n idx →
  ∃ n' idx', stands_at H sys' n' idx'.
Proof.
  intros [ev evs store snaps|store evs snaps] (Hn & Hp & Hs & Hsort & Hle); simpl in *.
  - destruct ev as [req|line|store']; simpl in *.
    + by exists n, idx.
    + by exists n, idx.
    + exists (S n), idx.
      assert (H !! S n = Some store' ∧ unlocked evs = drop (S (S n)) H) as [H1 H2].
      { split.
        - by rewrite <- (Nat.add_0_r (S n)), <- lookup_drop, <- Hp.
        - replace (S (S n)) with (S n + 1)%nat by lia.
          by rewrite <- drop_drop, <- Hp. }
      repeat split; try done. eapply Forall_impl; [done|]. simpl. lia.
  - exists n, (idx ++ [n])%list. repeat split; try done.
    + apply Forall2_app; [done|]. by constructor.
    + apply StronglySorted_app_2; [|done|repeat constructor].
      rewrite Forall_forall in Hle.
      intros i j Hi ->%list_elem_of_singleton. by apply Hle.
    + apply Forall_app. split; [done|]. by constructor.
Qed.

Lemma rtc_step_stands_at H sys sys' n idx :
  rtc step sys sys' → stands_at H sys n idx →
  ∃ n' idx', stands_at H sys' n' idx'.
Proof.
  intros Hrtc. revert n idx. induction Hrtc as [|x y z Hxy _ IH]; intros n idx Hst; [eauto|].
  destruct (step_stands_at _ _ _ _ _ Hxy Hst) as (n' & idx' & Hst'). eauto.
Qed.

Lemma chain_last clock t s l t' s' : chain clock t s l t' s' → last (s :: l) = Some s'.
Proof.
  induction 1 as [|t s t1 s1 l t' s' _ _ IH]; [done|].
  by rewrite last_cons_cons.
Qed.

(** X12.  Lines 108-177 with 682-687.  With a clock that does not run backwards,
    a reader of the dashboard never sees the [LastCheck] of a pod go back:
    of two snapshots that both show the pod, the later shows a time that
    is no earlier.  And once the monitor has stopped, what a reader sees is
    the dashboard the run ends with. *)
Theorem readers_see_time_advance clock Unmarshal cycles sys :
  (∀ i j, (i ≤ j)%nat → (clock i ≤ clock j)%Z) →
  rtc step (monitor_start clock Unmarshal cycles) sys →
  (∀ p q s s' name r r',
     (p ≤ q)%nat → seen sys !! p = Some s → seen sys !! q = Some s' →
     s !! name = Some r → s' !! name = Some r' →
     (LastCheck r ≤ LastCheck r')%Z) ∧
  (pending sys = [] →
     shared sys = pods (monitorPods clock Unmarshal cycles 0 NewDashboard).1.2).
Proof.
  intros Hclock Hrtc.
  pose (H := history (pods NewDashboard)
               (monitorPods clock Unmarshal cycles 0 NewDashboard).2).
  pose proof (chain_monitorPods clock Unmarshal cycles 0 NewDashboard) as Hchain.
  cbn zeta in Hchain.
  destruct (rtc_step_stands_at H _ _ 0 [] Hrtc) as (n & idx & Hn & Hp & Hs & Hsort & Hle).
  { unfold stands_at. simpl. split; [done|]. split; [by rewrite drop_0|].
    repeat split; constructor. }
  split.
  - intros p q s s' name r r' Hpq Hsp Hsq Hr Hr'.
    destruct (Forall2_lookup_l _ _ _ _ _ Hs Hsp) as (i & Hi & Hsi).
    destruct (Forall2_lookup_l _ _ _ _ _ Hs Hsq) as (j & Hj & Hsj).
    assert (i ≤ j)%nat as Hij.
    { destruct (decide (p = q)) as [->|Hne]; [rewrite Hi in Hj; injection Hj; lia|].
      apply (StronglySorted_lookup le idx p q); [done|lia|done|done]. }
    eapply (chain_monotone clock Hclock _ _ _ _ _ Hchain); [|exact Hij|done..].
    intros ? ? Hx. cbn [NewDashboard pods] in Hx. by rewrite lookup_empty in Hx.
  - intros Hpend. rewrite Hpend in Hp. simpl in Hp.
    apply chain_last in Hchain. fold (history (pods NewDashboard)
      (monitorPods clock Unmarshal cycles 0 NewDashboard).2) in Hchain. fold H in Hchain.
    symmetry in Hp. apply drop_nil_inv in Hp.
    rewrite last_lookup in Hchain.
    pose proof (lookup_lt_Some _ _ _ Hn) as Hlt.
    assert (length H
            = S (length (unlocked (monitorPods clock Unmarshal cycles 0 NewDashboard).2)))
      as Hlen by done.
    replace (Nat.pred (length H)) with n in Hchain by lia.
    rewrite Hn in Hchain. by injection Hchain.
Qed.

(** The reconciler does some of what it has to do, then a reader reads. *)
Lemma reconciler_then_reader evs1 : ∀ store evs2 snaps,
  rtc step {| shared := store; pending := evs1 ++ evs2; seen := snaps |}
           {| shared := foldl (λ s ev, commit ev s) store evs1; pending := evs2;
              seen := snaps ++ [foldl (λ s ev, commit ev s) store evs1] |}.
Proof.
  induction evs1 as [|ev evs1 IH]; intros store evs2 snaps.
  - apply rtc_once, step_reader.
  - eapply rtc_l; [apply step_reconciler|]. apply IH.
Qed.

Lemma readers_see_time_advance_witness :
  let evs := (monitorPods Scenario.clock Scenario.Unmarshal
                [Scenario.healthy; Scenario.first_times_out] 0 NewDashboard).2 in
  let s1 := foldl (λ s ev, commit ev s) (pods NewDashboard) (take 2 evs) in
  let s2 := foldl (λ s ev, commit ev s) s1 (take 6 (drop 2 evs)) in
  ∃ r r', s1 !! "web-7f8c9d-abcde" = Some r ∧ s2 !! "web-7f8c9d-abcde" = Some r' ∧
          (LastCheck r ≤ LastCheck r')%Z.
Proof.
  intros evs s1 s2.
  assert (rtc step (monitor_start Scenario.clock Scenario.Unmarshal
                      [Scenario.healthy; Scenario.first_times_out])
                   {| shared := s2; pending := drop 8 evs; seen := [s1; s2] |}) as Hrtc.
  { eapply rtc_trans.
    - exact (reconciler_then_reader (take 2 evs) (pods NewDashboard) (drop 2 evs) []).
    - exact (reconciler_then_reader (take 6 (drop 2 evs)) s1 (drop 8 evs) [s1]). }
  assert (is_Some (s1 !! "web-7f8c9d-abcde")) as [r Hr] by (vm_compute; eauto).
  assert (is_Some (s2 !! "web-7f8c9d-abcde")) as [r' Hr'] by (vm_compute; eauto).
  exists r, r'. split; [done|]. split; [done|].
  refine (proj1 (readers_see_time_advance Scenario.clock Scenario.Unmarshal _ _ _ Hrtc)
            0%nat 1%nat s1 s2 "web-7f8c9d-abcde" r r' _ eq_refl eq_refl Hr Hr').
  - intros i j Hij. unfold Scenario.clock. lia.
  - lia.
Defined.
